(** * Oldgraph.h: angle helpers, plot registry and range-bar dragging

    A shallow embedding of the plotting widget declared in [src/Oldgraph.h].

    The four inline angle helpers ([constrainAngle], [angleConv], [angleDiff],
    [unwrap]) are defined in the header itself and are transcribed from it
    twice:

    - in [Binary64], on IEEE 754 doubles, as the compiled code computes
      them: every [+] and [-] rounds to nearest with ties to even, [fmod] is
      exact, [M_PI] is the double 0x400921FB54442D18, a difference may
      overflow and an infinity fed to [fmod] gives a NaN;
    - in [AngleMath], over the real numbers, with [M_PI] the real pi and no
      rounding: the exact arithmetic the doubles approximate.

    The lookup table and the drag handlers are only declared in the header
    (their bodies live in a translation unit that is not part of the sources);
    they are modelled from the written specification and every such
    definition says so. *)

From Stdlib Require Import Reals Lra Lia ZArith NArith List Bool Permutation.
Import ListNotations.

(* ===================================================================== *)
(** * AngleMath over the reals *)
(* ===================================================================== *)

Module AngleMath.

Local Open Scope R_scope.

(** ** The two names taken from <cmath> *)

(** [M_PI]: the constant the header multiplies and adds. *)
Definition M_PI : R := PI.

(** The integral quotient of [fmod]: the quotient rounded toward zero. *)
Definition Rtrunc (r : R) : Z :=
  if Rle_dec 0 r then Int_part r else (- Int_part (- r))%Z.

(** [fmod x y]: [x - n * y] where [n] is [x / y] with its fractional part
    cut off.  The result has the sign of [x] and magnitude below [|y|].
    The header only ever divides by [2 * M_PI]. *)
Definition fmod (x y : R) : R := x - IZR (Rtrunc (x / y)) * y.

(** ** The helpers, as written in the header *)

(** [[
    inline double constrainAngle(double x){
        x = fmod(x + M_PI,2*M_PI);
        if (x < 0)
            x += 2*M_PI;
        return x - M_PI;
    }
    ]] *)
Definition constrainAngle (x : R) : R :=
  let x1 := fmod (x + M_PI) (2 * M_PI) in
  let x2 := if Rlt_dec x1 0 then x1 + 2 * M_PI else x1 in
  x2 - M_PI.

(** [[
    inline double angleConv(double angle){
        return fmod(constrainAngle(angle),2*M_PI);
    }
    ]] *)
Definition angleConv (angle : R) : R :=
  fmod (constrainAngle angle) (2 * M_PI).

(** [[
    inline double angleDiff(double a,double b){
        double dif = fmod(b - a + M_PI,2*M_PI);
        if (dif < 0)
            dif += 2*M_PI;
        return dif - M_PI;
    }
    ]] *)
Definition angleDiff (a b : R) : R :=
  let dif := fmod (b - a + M_PI) (2 * M_PI) in
  let dif' := if Rlt_dec dif 0 then dif + 2 * M_PI else dif in
  dif' - M_PI.

(** [[
    inline double unwrap(double previousAngle,double newAngle){
        return previousAngle - angleDiff(newAngle,angleConv(previousAngle));
    }
    ]] *)
Definition unwrap (previousAngle newAngle : R) : R :=
  previousAngle - angleDiff newAngle (angleConv previousAngle).

(** Two angles name the same direction when they differ by a whole number
    of turns. *)
Definition congruent2pi (u v : R) : Prop :=
  exists k : Z, u = v + IZR k * (2 * M_PI).

(** The sequential use of [unwrap]: the first raw sample is kept as it is,
    every later one is unwrapped against the previous output. *)
Fixpoint unwrapFrom (prev : R) (raw : list R) : list R :=
  match raw with
  | [] => []
  | y :: rest => let u := unwrap prev y in u :: unwrapFrom u rest
  end.

Definition unwrapSeq (raw : list R) : list R :=
  match raw with
  | [] => []
  | y0 :: rest => y0 :: unwrapFrom y0 rest
  end.

(** All neighbours of a list are closer than [eps]. *)
Fixpoint stepsBelow (eps : R) (l : list R) : Prop :=
  match l with
  | a :: ((b :: _) as tl) => Rabs (b - a) < eps /\ stepsBelow eps tl
  | _ => True
  end.

(** Two sample lists agree pointwise up to [eps]. *)
Definition approxList (eps : R) (l1 l2 : list R) : Prop :=
  Forall2 (fun u v => Rabs (u - v) < eps) l1 l2.

End AngleMath.

(* ===================================================================== *)
(** * AngleMath on binary64 *)
(* ===================================================================== *)

Module Binary64.

Local Open Scope Z_scope.

(** ** IEEE 754 binary64 values

    A finite [double] is kept as the integer [n] whose value is
    [n * 2^-1074]: every finite double is a whole multiple of the smallest
    subnormal, so sums, differences and remainders of doubles are exact
    integers here and only the rounding of the result has to be written
    out.  The sign of a zero is not kept: the helpers add, subtract, take
    [fmod] and compare with [<], and none of these tells the two zeros
    apart. *)
Inductive double : Type :=
  | Fin (n : Z)
  | Inf (negative : bool)
  | NaN.

(** The position of the leading bit, and the exponent of the unit in the
    last place: 53 significant bits, never below the subnormal unit. *)
Definition mag (n : Z) : Z := Z.log2 (Z.abs n).

Definition ulpExp (n : Z) : Z := Z.max (mag n - 52) 0.

(** [n] is the scaled value of a double: a multiple of its own unit in the
    last place, below [2^1024] in magnitude. *)
Definition onGrid (n : Z) : Prop := (2 ^ ulpExp n | n).

Definition representable (n : Z) : Prop := onGrid n /\ Z.abs n < 2 ^ 2098.

Definition onGridb (n : Z) : bool := n mod 2 ^ ulpExp n =? 0.

Definition representableb (n : Z) : bool :=
  (n mod 2 ^ ulpExp n =? 0) && (Z.abs n <? 2 ^ 2098).

(** The double behind a 64-bit pattern: sign bit, 11 exponent bits, 52
    fraction bits. *)
Definition ofBits (b : Z) : double :=
  let s := Z.testbit b 63 in
  let E := Z.land (Z.shiftr b 52) 2047 in
  let f := Z.land b (2 ^ 52 - 1) in
  if E =? 2047 then (if f =? 0 then Inf s else NaN)
  else
    let m := if E =? 0 then f else (2 ^ 52 + f) * 2 ^ (E - 1) in
    Fin (if s then - m else m).

(** ** Rounding to nearest, ties to even *)

(** [n / 2^k] rounded to the nearest integer, a tie going to the even
    one. *)
Definition rne (n k : Z) : Z :=
  let q := n / 2 ^ k in
  let r := n mod 2 ^ k in
  match 2 * r ?= 2 ^ k with
  | Lt => q
  | Gt => q + 1
  | Eq => if Z.even q then q else q + 1
  end.

(** An exact scaled value rounded to 53 significant bits. *)
Definition roundZ (n : Z) : Z := rne n (ulpExp n) * 2 ^ ulpExp n.

(** A rounded value of magnitude [2^1024] or more becomes an infinity. *)
Definition overflow (n : Z) : double :=
  if 2 ^ 2098 <=? Z.abs n then Inf (n <? 0) else Fin n.

Definition round (n : Z) : double := overflow (roundZ n).

(** The same for an exact product, whose unit is [2^-2148]. *)
Definition roundProduct (p : Z) : double :=
  let k := Z.max (mag p - 52) 1074 in
  overflow (rne p k * 2 ^ (k - 1074)).

(** ** The operations the helpers use *)

(** The conversion of an [int] literal. *)
Definition ofInt (i : Z) : double := round (i * 2 ^ 1074).

Definition dneg (x : double) : double :=
  match x with
  | Fin n => Fin (- n)
  | Inf s => Inf (negb s)
  | NaN => NaN
  end.

(** [x + y] *)
Definition dadd (x y : double) : double :=
  match x, y with
  | NaN, _ | _, NaN => NaN
  | Inf s, Inf t => if Bool.eqb s t then Inf s else NaN
  | Inf s, Fin _ => Inf s
  | Fin _, Inf t => Inf t
  | Fin a, Fin b => round (a + b)
  end.

(** [x - y] *)
Definition dsub (x y : double) : double := dadd x (dneg y).

(** [x * y] *)
Definition dmul (x y : double) : double :=
  match x, y with
  | NaN, _ | _, NaN => NaN
  | Inf s, Inf t => Inf (xorb s t)
  | Inf s, Fin b => if b =? 0 then NaN else Inf (xorb s (b <? 0))
  | Fin a, Inf t => if a =? 0 then NaN else Inf (xorb (a <? 0) t)
  | Fin a, Fin b => roundProduct (a * b)
  end.

(** [x < y]; false as soon as one side is a NaN. *)
Definition dlt (x y : double) : bool :=
  match x, y with
  | NaN, _ | _, NaN => false
  | Fin a, Fin b => a <? b
  | Fin _, Inf t => negb t
  | Inf s, Fin _ => s
  | Inf s, Inf t => s && negb t
  end.

(** [fmod(x, y)] of <cmath>: the exact remainder of the division with the
    quotient cut toward zero; NaN for an infinite [x] or a zero [y], and
    [x] itself for a finite [x] and an infinite [y]. *)
Definition fmod (x y : double) : double :=
  match x, y with
  | NaN, _ | _, NaN => NaN
  | Inf _, _ => NaN
  | Fin a, Inf _ => Fin a
  | Fin a, Fin b => if b =? 0 then NaN else Fin (Z.rem a b)
  end.

(** [M_PI] of <cmath>, 3.14159265358979323846 as a double. *)
Definition M_PI : double := ofBits 0x400921FB54442D18.

(** ** The helpers, as written in the header

    Each operator of the C expressions is one rounded operation, applied
    in the order the expression is parsed. *)

(** [[
    inline double constrainAngle(double x){
        x = fmod(x + M_PI,2*M_PI);
        if (x < 0)
            x += 2*M_PI;
        return x - M_PI;
    }
    ]] *)
Definition constrainAngle (x : double) : double :=
  let x1 := fmod (dadd x M_PI) (dmul (ofInt 2) M_PI) in
  let x2 :=
    if dlt x1 (ofInt 0) then dadd x1 (dmul (ofInt 2) M_PI) else x1 in
  dsub x2 M_PI.

(** [[
    inline double angleConv(double angle){
        return fmod(constrainAngle(angle),2*M_PI);
    }
    ]] *)
Definition angleConv (angle : double) : double :=
  fmod (constrainAngle angle) (dmul (ofInt 2) M_PI).

(** [[
    inline double angleDiff(double a,double b){
        double dif = fmod(b - a + M_PI,2*M_PI);
        if (dif < 0)
            dif += 2*M_PI;
        return dif - M_PI;
    }
    ]] *)
Definition angleDiff (a b : double) : double :=
  let dif := fmod (dadd (dsub b a) M_PI) (dmul (ofInt 2) M_PI) in
  let dif' :=
    if dlt dif (ofInt 0) then dadd dif (dmul (ofInt 2) M_PI) else dif in
  dsub dif' M_PI.

(** [[
    inline double unwrap(double previousAngle,double newAngle){
        return previousAngle - angleDiff(newAngle,angleConv(previousAngle));
    }
    ]] *)
Definition unwrap (previousAngle newAngle : double) : double :=
  dsub previousAngle (angleDiff newAngle (angleConv previousAngle)).

(** ** Words used in the statements *)

(** A finite double (what [std::isfinite] accepts). *)
Definition isFinite (x : double) : bool :=
  match x with Fin n => representableb n | _ => false end.

(** Neither an infinity nor a NaN. *)
Definition isNumber (x : double) : bool :=
  match x with Fin _ => true | _ => false end.

(** A finite double of magnitude at most [2^e]. *)
Definition magnitudeAtMost (e : Z) (x : double) : bool :=
  match x with Fin n => Z.abs n <=? 2 ^ (1074 + e) | _ => false end.

(** The real number a scaled integer, or a finite double, stands for. *)
Definition toR (n : Z) : R := (IZR n / 2 ^ 1074)%R.

Definition toReal (x : double) : R :=
  match x with Fin n => toR n | _ => 0%R end.

(** ** The same computations on scaled integers *)

(** The scaled value of [M_PI], and of the largest finite double. *)
Definition nPi : Z := 884279719003555 * 2 ^ 1026.

Definition maxFinite : Z := 2 ^ 2098 - 2 ^ 2045.

(** The conditional [x += 2*M_PI] on a remainder. *)
Definition liftZ (r0 : Z) : Z :=
  if r0 <? 0 then roundZ (r0 + 2 * nPi) else r0.

(** What [constrainAngle] and [angleDiff] both do once [x + M_PI], or
    [b - a + M_PI], has been computed. *)
Definition tailZ (t : Z) : Z := roundZ (liftZ (Z.rem t (2 * nPi)) - nPi).

Definition tailD (x : double) : double :=
  match x with Fin t => Fin (tailZ t) | _ => NaN end.

Definition unwrapZ (p n : Z) : Z :=
  let c := tailZ (roundZ (p + nPi)) in
  let d := tailZ (roundZ (roundZ (c - n) + nPi)) in
  roundZ (p - d).

End Binary64.

(* ===================================================================== *)
(** * PlotRegistry *)
(* ===================================================================== *)

Module PlotRegistry.

(** A [QUuid] is a 128-bit value on which the widget only ever tests
    equality. *)
Definition QUuid : Type := N.

(** [QVector<QUuid> _lookupTable]: "stores the uid of all graphs in the
    order they are plotted in the plotting backend".  The position of a uid
    in the vector is its slot. *)
Definition LookupTable : Type := list QUuid.

(** Removal of the element at a position, later elements moving down by
    one; out of range the list is returned as it is. *)
Fixpoint removeAt {A : Type} (i : nat) (l : list A) : list A :=
  match l, i with
  | [], _ => []
  | _ :: rest, O => rest
  | a :: rest, S j => a :: removeAt j rest
  end.

(** Modelled from the spec: the bodies of [addLine], [updateLine] and
    [removeLine] are missing from the header.  [slotFor id] is the position
    of [id] in the table, or not-found. *)
Fixpoint slotFor (id : QUuid) (tbl : LookupTable) : option nat :=
  match tbl with
  | [] => None
  | u :: rest =>
      if N.eqb u id then Some O else option_map S (slotFor id rest)
  end.

(** Modelled from the spec: the body of the lookup by position is missing
    from the header.  [idFor slot] is the uid stored at [slot], or
    not-found. *)
Definition idFor (slot : nat) (tbl : LookupTable) : option QUuid :=
  nth_error tbl slot.

(** Modelled from the spec: the body of [addLine] is missing from the
    header.  "appends id to the LookupTable if not already present; returns
    existing slot if already present". *)
Definition assignSlot (id : QUuid) (tbl : LookupTable) : nat * LookupTable :=
  match slotFor id tbl with
  | Some slot => (slot, tbl)
  | None => (length tbl, tbl ++ [id])
  end.

(** Modelled from the spec: the body of [removeLine] is missing from the
    header.  "removes id from the LookupTable, shifting all subsequent slots
    down by one to preserve contiguity; fails silently (no-op) if id is not
    present". *)
Definition releaseSlot (id : QUuid) (tbl : LookupTable) : LookupTable :=
  match slotFor id tbl with
  | Some slot => removeAt slot tbl
  | None => tbl
  end.

(** A call made on the registry, and the table after a sequence of calls
    made on the empty one. *)
Inductive RegistryCall : Type :=
  | AssignSlot (id : QUuid)
  | ReleaseSlot (id : QUuid).

Definition calledId (c : RegistryCall) : QUuid :=
  match c with AssignSlot id | ReleaseSlot id => id end.

Definition call (tbl : LookupTable) (c : RegistryCall) : LookupTable :=
  match c with
  | AssignSlot id => snd (assignSlot id tbl)
  | ReleaseSlot id => releaseSlot id tbl
  end.

Definition runFrom (tbl : LookupTable) (calls : list RegistryCall)
  : LookupTable :=
  fold_left call calls tbl.

Definition run (calls : list RegistryCall) : LookupTable := runFrom [] calls.

(** Which lines are on display, read off the calls alone: a uid is
    displayed when the last call that names it is an assignment. *)
Definition shownStep (id : QUuid) (b : bool) (c : RegistryCall) : bool :=
  match c with
  | AssignSlot u => if N.eqb u id then true else b
  | ReleaseSlot u => if N.eqb u id then false else b
  end.

Definition shown (calls : list RegistryCall) (id : QUuid) : bool :=
  fold_left (shownStep id) calls false.

Definition displayedIds (calls : list RegistryCall) : list QUuid :=
  nodup N.eq_dec (filter (shown calls) (map calledId calls)).

(** The slots in use: those at which the table answers with a uid. *)
Definition occupied (tbl : LookupTable) (slot : nat) : Prop :=
  exists id, idFor slot tbl = Some id.

(** ** The widget state that [removeItem] works on *)

(** A plotted line: the point series handed to the backend. *)
Definition PlottedLine : Type := list (R * R).

(** The two axis ranges (lower, upper), x then y. *)
Definition Viewport : Type := ((R * R) * (R * R))%type.

Record Graph : Type := mkGraph {
  _lookupTable : LookupTable;
  plottedLines : list PlottedLine;   (* in backend order, one per slot *)
  viewport : Viewport
}.

Section Controller.

(** The bounds computation of [rescaleToFit] is missing from the header
    and the specification leaves its margin open; it is a parameter. *)
Variable rescaleToFit : list PlottedLine -> Viewport -> Viewport.

(** Modelled from the spec: the body of [removeLine] is missing from the
    header.  The uid leaves the table and the line at its slot leaves the
    backend; an unknown uid changes nothing. *)
Definition removeLine (id : QUuid) (g : Graph) : Graph :=
  match slotFor id (_lookupTable g) with
  | Some slot =>
      mkGraph (releaseSlot id (_lookupTable g))
              (removeAt slot (plottedLines g))
              (viewport g)
  | None => g
  end.

(** Modelled from the spec: the body of [removeItem] is missing from the
    header.  "releases the slot and removes the visual line; triggers
    rescaleToFit"; for a uid that is not registered it "is a no-op, not a
    fatal error". *)
Definition removeItem (id : QUuid) (g : Graph) : Graph :=
  match slotFor id (_lookupTable g) with
  | Some _ =>
      let g' := removeLine id g in
      mkGraph (_lookupTable g') (plottedLines g')
              (rescaleToFit (plottedLines g') (viewport g'))
  | None => g
  end.

End Controller.

End PlotRegistry.

(* ===================================================================== *)
(** * RangeOverlay *)
(* ===================================================================== *)

Module RangeOverlay.

Local Open Scope R_scope.

Inductive Axis : Type := AxisX | AxisY.

(** One of the range bars of [_ranges]: its coordinate and the axis it is
    bound to. *)
Record RangeMarker : Type := mkMarker {
  coordinate : R;
  boundAxis : Axis
}.

(** The fields [dragged] ("the currently dragged element") and [draggedY]
    ("whether the dragging process is done along x or y axis") as one
    value. *)
Inductive DragState : Type :=
  | Idle
  | Dragging (markerIndex : nat) (axis : Axis).

(** A pointer position, already projected on the two axes. *)
Record Pointer : Type := mkPointer {
  pointerX : R;
  pointerY : R
}.

Inductive PointerEvent : Type :=
  | PointerDown (p : Pointer)
  | PointerMove (p : Pointer)
  | PointerUp (p : Pointer).

Record Overlay : Type := mkOverlay {
  _ranges : list RangeMarker;
  xVisible : R * R;                  (* visible range of the x axis *)
  yVisible : R * R;                  (* visible range of the y axis *)
  drag : DragState
}.

Definition project (a : Axis) (p : Pointer) : R :=
  match a with AxisX => pointerX p | AxisY => pointerY p end.

Definition visibleRange (a : Axis) (o : Overlay) : R * R :=
  match a with AxisX => xVisible o | AxisY => yVisible o end.

Definition clamp (lo hi v : R) : R :=
  if Rlt_dec v lo then lo else if Rlt_dec hi v then hi else v.

Fixpoint moveMarker (i : nat) (v : R) (ms : list RangeMarker)
  : list RangeMarker :=
  match ms, i with
  | [], _ => []
  | m :: rest, O => mkMarker v (boundAxis m) :: rest
  | m :: rest, S j => m :: moveMarker j v rest
  end.

Section HitTest.

(** The hit-test tolerance is not fixed by the specification. *)
Variable tolerance : R.

Definition hits (p : Pointer) (m : RangeMarker) : bool :=
  if Rle_dec (Rabs (project (boundAxis m) p - coordinate m)) tolerance
  then true else false.

(** The first marker under the pointer, with the axis it is bound to;
    [base] is the index of the head of [ms]. *)
Fixpoint hitTest (p : Pointer) (base : nat) (ms : list RangeMarker)
  : option (nat * Axis) :=
  match ms with
  | [] => None
  | m :: rest =>
      if hits p m then Some (base, boundAxis m)
      else hitTest p (S base) rest
  end.

(** Modelled from the spec: the body of [handleMousePress] is missing
    from the header.  [Idle -> Dragging] when the pointer is within the
    tolerance of a marker; "a drag in progress ignores new pointer-downs
    until released". *)
Definition handleMousePress (p : Pointer) (o : Overlay) : Overlay :=
  match drag o with
  | Dragging _ _ => o
  | Idle =>
      match hitTest p O (_ranges o) with
      | Some (i, a) =>
          mkOverlay (_ranges o) (xVisible o) (yVisible o) (Dragging i a)
      | None => o
      end
  end.

(** Modelled from the spec: the body of [handleMouseMove] is missing
    from the header.  While dragging, the marker takes the pointer's
    projection on the bound axis, clamped to the visible range of that
    axis; "no transition occurs on pointer-move while Idle". *)
Definition handleMouseMove (p : Pointer) (o : Overlay) : Overlay :=
  match drag o with
  | Idle => o
  | Dragging i a =>
      let '(lo, hi) := visibleRange a o in
      mkOverlay (moveMarker i (clamp lo hi (project a p)) (_ranges o))
                (xVisible o) (yVisible o) (Dragging i a)
  end.

(** Modelled from the spec: the body of [handleMouseRelease] is missing
    from the header.  [Dragging -> Idle] "on pointer-up (any button
    release), regardless of final position". *)
Definition handleMouseRelease (p : Pointer) (o : Overlay) : Overlay :=
  mkOverlay (_ranges o) (xVisible o) (yVisible o) Idle.

Definition step (o : Overlay) (ev : PointerEvent) : Overlay :=
  match ev with
  | PointerDown p => handleMousePress p o
  | PointerMove p => handleMouseMove p o
  | PointerUp p => handleMouseRelease p o
  end.

(** The overlay starts with no drag in progress; whatever pointer events
    lead to is reachable. *)
Inductive reachable : Overlay -> Prop :=
  | reach_start ms xr yr : reachable (mkOverlay ms xr yr Idle)
  | reach_step o ev : reachable o -> reachable (step o ev).

End HitTest.

End RangeOverlay.

(* ===================================================================== *)
(** * The two enumerations of the header *)
(* ===================================================================== *)

Module PlotEnums.

(** [[
    enum SNOM_PlotTypes {
        TIME = 0, FFTAMP = 1, FFTPHASE = 2, FFTPHASEL = 3, OSC1 = 4, OSC2 = 5
    };
    ]] *)
Inductive SNOM_PlotTypes : Type :=
  | TIME | FFTAMP | FFTPHASE | FFTPHASEL | OSC1 | OSC2.

(** The integer an enumerator stands for, as passed to [renameAxis(int)]. *)
Definition plotTypeValue (t : SNOM_PlotTypes) : Z :=
  match t with
  | TIME => 0 | FFTAMP => 1 | FFTPHASE => 2
  | FFTPHASEL => 3 | OSC1 => 4 | OSC2 => 5
  end%Z.

(** [[
    enum SNOM_PlotWidth { NORMAL = 1, LARGE = 2, LARGER = 3 };
    ]] *)
Inductive SNOM_PlotWidth : Type :=
  | NORMAL | LARGE | LARGER.

Definition plotWidthValue (w : SNOM_PlotWidth) : Z :=
  match w with NORMAL => 1 | LARGE => 2 | LARGER => 3 end%Z.

End PlotEnums.

(* ===================================================================== *)
(** * Properties of AngleMath over the reals *)
(* ===================================================================== *)

Module AngleFacts.

Import AngleMath.
Local Open Scope R_scope.

(** ** Facts about [fmod] *)

Lemma M_PI_pos : 0 < M_PI.
Proof. exact PI_RGT_0. Qed.

Lemma two_M_PI_pos : 0 < 2 * M_PI.
Proof. pose proof M_PI_pos; lra. Qed.

Lemma Rtrunc_nonneg r :
  0 <= r -> IZR (Rtrunc r) <= r < IZR (Rtrunc r) + 1.
Proof.
  intros Hr. unfold Rtrunc.
  destruct (Rle_dec 0 r) as [_|Hn]; [|contradiction].
  destruct (base_Int_part r). lra.
Qed.

Lemma Rtrunc_neg r :
  r < 0 -> IZR (Rtrunc r) - 1 < r <= IZR (Rtrunc r).
Proof.
  intros Hr. unfold Rtrunc.
  destruct (Rle_dec 0 r) as [Hp|_]; [lra|].
  destruct (base_Int_part (- r)). rewrite opp_IZR. lra.
Qed.

Lemma Rtrunc_small r : -1 < r < 1 -> Rtrunc r = 0%Z.
Proof.
  intros [Hlo Hhi].
  destruct (Rle_dec 0 r) as [Hp|Hn].
  - destruct (Rtrunc_nonneg r Hp) as [H1 H2].
    assert (Hz : (-1 < Rtrunc r < 1)%Z)
      by (split; apply lt_IZR; lra).
    lia.
  - destruct (Rtrunc_neg r ltac:(lra)) as [H1 H2].
    assert (Hz : (-1 < Rtrunc r < 1)%Z)
      by (split; apply lt_IZR; lra).
    lia.
Qed.

Section Fmod.

Variable y : R.
Hypothesis y_pos : 0 < y.

Lemma div_mul_cancel x : x / y * y = x.
Proof. field. lra. Qed.

Lemma fmod_nonneg x : 0 <= x -> 0 <= fmod x y < y.
Proof.
  intros Hx. unfold fmod.
  assert (Hq : 0 <= x / y).
  { apply Rmult_le_pos; [lra|]. left. now apply Rinv_0_lt_compat. }
  destruct (Rtrunc_nonneg _ Hq) as [H1 H2].
  pose proof (div_mul_cancel x) as E.
  split; nra.
Qed.

Lemma fmod_neg x : x < 0 -> - y < fmod x y <= 0.
Proof.
  intros Hx. unfold fmod.
  assert (Hq : x / y < 0).
  { pose proof (Rinv_0_lt_compat _ y_pos). unfold Rdiv. nra. }
  destruct (Rtrunc_neg _ Hq) as [H1 H2].
  pose proof (div_mul_cancel x) as E.
  split; nra.
Qed.

Lemma fmod_range x : - y < fmod x y < y.
Proof.
  destruct (Rle_dec 0 x) as [Hp|Hn].
  - destruct (fmod_nonneg x Hp). lra.
  - destruct (fmod_neg x ltac:(lra)). lra.
Qed.

Lemma fmod_small x : - y < x < y -> fmod x y = x.
Proof.
  intros [Hlo Hhi]. unfold fmod.
  rewrite Rtrunc_small; [simpl; lra|].
  pose proof (Rinv_0_lt_compat _ y_pos) as Hi.
  pose proof (div_mul_cancel x) as E.
  split.
  - apply Rnot_le_lt. intros Hc. nra.
  - apply Rnot_le_lt. intros Hc. nra.
Qed.

(** Adding the divisor to a negative remainder gives a value in
    [[0, y)]: the common tail of [constrainAngle] and [angleDiff]. *)
Lemma fmod_lifted x :
  let r := fmod x y in
  0 <= (if Rlt_dec r 0 then r + y else r) < y.
Proof.
  intros r. pose proof (fmod_range x) as Hr. fold r in Hr.
  destruct (Rlt_dec r 0) as [Hneg|Hpos]; lra.
Qed.

End Fmod.

(** ** Congruence modulo a full turn *)

Lemma congruent2pi_refl u : congruent2pi u u.
Proof. exists 0%Z. lra. Qed.

Lemma congruent2pi_sym u v : congruent2pi u v -> congruent2pi v u.
Proof. intros [k ->]. exists (- k)%Z. rewrite opp_IZR. lra. Qed.

Lemma congruent2pi_trans u v w :
  congruent2pi u v -> congruent2pi v w -> congruent2pi u w.
Proof.
  intros [k ->] [j ->]. exists (k + j)%Z. rewrite plus_IZR. lra.
Qed.

Lemma congruent2pi_shift u v c :
  congruent2pi u v -> congruent2pi (u + c) (v + c).
Proof. intros [k ->]. exists k. lra. Qed.

Lemma fmod_congruent x : congruent2pi (fmod x (2 * M_PI)) x.
Proof.
  exists (- Rtrunc (x / (2 * M_PI)))%Z. unfold fmod. rewrite opp_IZR. lra.
Qed.

(** The shared tail "add a turn if negative, then take half a turn off". *)
Lemma lifted_congruent x :
  let r := fmod x (2 * M_PI) in
  congruent2pi ((if Rlt_dec r 0 then r + 2 * M_PI else r) - M_PI) (x - M_PI).
Proof.
  intros r. apply congruent2pi_shift with (c := - M_PI).
  eapply congruent2pi_trans; [|apply fmod_congruent]. fold r.
  destruct (Rlt_dec r 0).
  - exists 1%Z. lra.
  - apply congruent2pi_refl.
Qed.

(** ** [constrainAngle] *)

Lemma constrainAngle_range x : - M_PI <= constrainAngle x < M_PI.
Proof.
  unfold constrainAngle.
  pose proof (fmod_lifted _ two_M_PI_pos (x + M_PI)) as H. cbv zeta in H.
  cbv zeta. lra.
Qed.

Lemma constrainAngle_congruent x : congruent2pi (constrainAngle x) x.
Proof.
  unfold constrainAngle. cbv zeta.
  pose proof (lifted_congruent (x + M_PI)) as H. cbv zeta in H.
  replace (x + M_PI - M_PI) with x in H by lra. exact H.
Qed.

(** ** [angleDiff] *)

Lemma angleDiff_range a b : - M_PI <= angleDiff a b < M_PI.
Proof.
  unfold angleDiff.
  pose proof (fmod_lifted _ two_M_PI_pos (b - a + M_PI)) as H.
  cbv zeta in H. cbv zeta. lra.
Qed.

Lemma angleDiff_congruent a b : congruent2pi (angleDiff a b) (b - a).
Proof.
  unfold angleDiff. cbv zeta.
  pose proof (lifted_congruent (b - a + M_PI)) as H. cbv zeta in H.
  replace (b - a + M_PI - M_PI) with (b - a) in H by lra. exact H.
Qed.

(** Each class has one representative in the principal range. *)
Lemma principal_unique d1 d2 :
  - M_PI <= d1 < M_PI -> - M_PI <= d2 < M_PI ->
  congruent2pi d1 d2 -> d1 = d2.
Proof.
  intros H1 H2 [k ->]. pose proof M_PI_pos as Hpi.
  assert (Hk : (-1 < k < 1)%Z).
  { split; apply lt_IZR; apply Rnot_le_lt; intros Hc; nra. }
  replace k with 0%Z by lia. lra.
Qed.

Lemma angleDiff_spec a b d :
  - M_PI <= d < M_PI -> congruent2pi d (b - a) -> angleDiff a b = d.
Proof.
  intros Hd Hc. apply principal_unique; auto using angleDiff_range.
  eapply congruent2pi_trans; [apply angleDiff_congruent|].
  now apply congruent2pi_sym.
Qed.

(** Rational bounds on the constant, from the Machin-like series. *)
Lemma M_PI_bounds : 3.1415 < M_PI < 3.1421.
Proof.
  unfold M_PI. pose proof (PI_2_3_7_ineq 1) as H.
  cbn [sum_f_R0 Nat.mul Nat.add] in H.
  unfold tg_alt, PI_2_3_7_tg, Ratan_seq in H.
  cbn [Nat.mul Nat.add pow INR] in H.
  lra.
Qed.

(** The outer [fmod] of [angleConv] meets a value it leaves alone. *)
Lemma fmod_constrainAngle x :
  fmod (constrainAngle x) (2 * M_PI) = constrainAngle x.
Proof.
  pose proof (constrainAngle_range x) as Hr.
  pose proof M_PI_pos. apply fmod_small; lra.
Qed.

Lemma angleConv_congruent x : congruent2pi (angleConv x) x.
Proof.
  unfold angleConv. rewrite fmod_constrainAngle.
  apply constrainAngle_congruent.
Qed.

(** [unwrap p n] is the one angle congruent to [n] whose offset from [p]
    lies above [- M_PI] and at or below [M_PI]. *)
Lemma unwrap_spec p n u :
  - M_PI < u - p <= M_PI -> congruent2pi u n -> unwrap p n = u.
Proof.
  intros Hu Hc. unfold unwrap.
  rewrite (angleDiff_spec n (angleConv p) (p - u)); [lra|lra|].
  destruct (angleConv_congruent p) as [j Hj].
  destruct Hc as [k Hk]. exists (- j - k)%Z.
  rewrite Hj, Hk, minus_IZR, opp_IZR. lra.
Qed.

(** ** The claims about AngleMath *)

(** C10: [angleConv] and [constrainAngle] agree on every real input: the
    outer [fmod] by a full turn does nothing on a value of the principal
    range. *)
Theorem angleConv_is_constrainAngle x : angleConv x = constrainAngle x.
Proof. unfold angleConv. apply fmod_constrainAngle. Qed.

(** C5: folding [unwrap] from the left over the raw phase samples
    [3.0, -3.1, 3.0], the first one kept as it is, gives
    [3.0, 2 * M_PI - 3.1, 3.0]: neighbouring outputs are closer than
    [2 * M_PI * 0.1], and the outputs are [3.0, 3.18, 3.0] up to half a
    unit of the second decimal. *)
Theorem unwrapSeq_phase_jump :
  let out := unwrapSeq [3; -3.1; 3] in
  out = [3; 2 * M_PI - 3.1; 3] /\
  stepsBelow (2 * M_PI * 0.1) out /\
  approxList 0.005 out [3; 3.18; 3].
Proof.
  pose proof M_PI_bounds as Hpi.
  assert (E : unwrapSeq [3; -3.1; 3] = [3; 2 * M_PI - 3.1; 3]).
  { cbn [unwrapSeq unwrapFrom]. cbv zeta.
    rewrite (unwrap_spec 3 (-3.1) (2 * M_PI - 3.1));
      [|lra|exists 1%Z; lra].
    rewrite (unwrap_spec (2 * M_PI - 3.1) 3 3);
      [reflexivity|lra|apply congruent2pi_refl]. }
  cbv zeta. rewrite E. split; [reflexivity|]. split.
  - cbn [stepsBelow]. repeat split; apply Rabs_def1; lra.
  - unfold approxList. repeat constructor; apply Rabs_def1; lra.
Qed.

End AngleFacts.

(* ===================================================================== *)
(** * Rounding to binary64 *)
(* ===================================================================== *)

Module Rounding.

Import Binary64.
Local Open Scope Z_scope.

(** ** The two neighbours of an exact value *)

Lemma pow2_pos k : 0 <= k -> 0 < 2 ^ k.
Proof. intros. apply Z.pow_pos_nonneg; lia. Qed.

Lemma ulpExp_nonneg n : 0 <= ulpExp n.
Proof. unfold ulpExp. lia. Qed.

Lemma mag_nonneg n : 0 <= mag n.
Proof. apply Z.log2_nonneg. Qed.

Lemma mag_spec n : n <> 0 -> 2 ^ mag n <= Z.abs n < 2 ^ (mag n + 1).
Proof.
  intros Hn. unfold mag.
  destruct (Z.log2_spec (Z.abs n)) as [H1 H2]; [lia|].
  rewrite <- Z.add_1_r in H2. lia.
Qed.

Lemma mag_lt a k : a <> 0 -> mag a < k -> Z.abs a < 2 ^ k.
Proof.
  intros Ha Hk. destruct (mag_spec a Ha) as [_ H].
  apply Z.lt_le_trans with (1 := H).
  apply Z.pow_le_mono_r; [lia|]. lia.
Qed.

Lemma mag_le_of_lt a k : 0 <= k -> Z.abs a < 2 ^ k -> mag a <= k - 1 \/ a = 0.
Proof.
  intros Hk Ha. destruct (Z.eq_dec a 0) as [->|Hn]; [now right|left].
  unfold mag. assert (Z.log2 (Z.abs a) < k); [|lia].
  apply Z.log2_lt_pow2; lia.
Qed.

Lemma pow2_divide j k : 0 <= j <= k -> (2 ^ j | 2 ^ k).
Proof.
  intros H. exists (2 ^ (k - j)). rewrite <- Z.pow_add_r by lia.
  f_equal. lia.
Qed.

Lemma floor_multiple P c n : 0 < P -> (P | c) -> c <= n -> c <= n / P * P.
Proof.
  intros HP [m ->] Hc.
  assert (m <= n / P) by (apply Z.div_le_lower_bound; lia).
  nia.
Qed.

Lemma ceil_multiple P c n :
  0 < P -> (P | c) -> n <= c -> n mod P <> 0 -> (n / P + 1) * P <= c.
Proof.
  intros HP [m ->] Hc Hr.
  pose proof (Z.div_mod n P ltac:(lia)) as E.
  pose proof (Z.mod_pos_bound n P HP) as B.
  assert (n / P < m) by nia.
  nia.
Qed.

Lemma rne_cases n k :
  0 <= k ->
  (rne n k = n / 2 ^ k /\ 2 * (n mod 2 ^ k) <= 2 ^ k) \/
  (rne n k = n / 2 ^ k + 1 /\ 2 ^ k <= 2 * (n mod 2 ^ k)).
Proof.
  intros Hk. unfold rne.
  destruct (Z.compare_spec (2 * (n mod 2 ^ k)) (2 ^ k)) as [E|L|G].
  - destruct (Z.even (n / 2 ^ k)); [left|right]; lia.
  - left. lia.
  - right. lia.
Qed.

(* the rounded value is one of the two grid neighbours *)
Lemma roundZ_cases n :
  let P := 2 ^ ulpExp n in
  (roundZ n = n / P * P /\ 2 * (n mod P) <= P) \/
  (roundZ n = (n / P + 1) * P /\ P <= 2 * (n mod P)).
Proof.
  cbv zeta. unfold roundZ.
  destruct (rne_cases n (ulpExp n) (ulpExp_nonneg n)) as [[-> H]|[-> H]];
    [left|right]; split; auto.
Qed.

Lemma roundZ_error n : 2 * Z.abs (roundZ n - n) <= 2 ^ ulpExp n.
Proof.
  pose proof (pow2_pos _ (ulpExp_nonneg n)) as HP.
  pose proof (Z.div_mod n (2 ^ ulpExp n) ltac:(lia)) as E.
  pose proof (Z.mod_pos_bound n _ HP) as B.
  destruct (roundZ_cases n) as [[-> H]|[-> H]]; lia.
Qed.

Lemma roundZ_id n : onGrid n -> roundZ n = n.
Proof.
  intros Hg. pose proof (pow2_pos _ (ulpExp_nonneg n)) as HP.
  assert (Hr : n mod 2 ^ ulpExp n = 0) by (apply Z.mod_divide; [lia|exact Hg]).
  pose proof (Z.div_mod n (2 ^ ulpExp n) ltac:(lia)) as E.
  destruct (roundZ_cases n) as [[-> H]|[-> H]]; lia.
Qed.

(* a grid point that is not a multiple of n's unit is smaller than n *)
Lemma off_unit_small a n :
  onGrid a -> ~ (2 ^ ulpExp n | a) ->
  Z.abs a < 2 ^ mag n /\ 0 < ulpExp n /\ n <> 0.
Proof.
  intros Ha Hnd.
  assert (Hlt : ulpExp a < ulpExp n).
  { destruct (Z.lt_ge_cases (ulpExp a) (ulpExp n)) as [H|H]; [exact H|].
    exfalso. apply Hnd. eapply Z.divide_trans; [|exact Ha].
    apply pow2_divide. pose proof (ulpExp_nonneg n). lia. }
  assert (Ha0 : a <> 0) by (intros ->; apply Hnd, Z.divide_0_r).
  pose proof (ulpExp_nonneg a). unfold ulpExp in *.
  assert (Hn0 : n <> 0).
  { intros ->. unfold mag in Hlt. cbn in Hlt. lia. }
  repeat split; [|lia|exact Hn0].
  apply mag_lt; [exact Ha0|lia].
Qed.

Lemma pow_mag_on_unit n : (2 ^ ulpExp n | 2 ^ mag n).
Proof.
  apply pow2_divide. pose proof (mag_nonneg n). unfold ulpExp. lia.
Qed.

Lemma divide_dec P a : 0 < P -> {(P | a)} + {~ (P | a)}.
Proof.
  intros HP. destruct (Z.eq_dec (a mod P) 0) as [E|E].
  - left. apply Z.mod_divide; [lia|exact E].
  - right. intros H. apply E. apply Z.mod_divide; [lia|exact H].
Qed.

Lemma roundZ_lower a n : onGrid a -> a <= n -> a <= roundZ n.
Proof.
  intros Ha Hle.
  pose proof (roundZ_cases n) as C. cbv zeta in C.
  pose proof (pow_mag_on_unit n) as Hpm.
  assert (Hoff : ~ (2 ^ ulpExp n | a) ->
                 Z.abs a < 2 ^ mag n /\ 0 < ulpExp n /\ n <> 0)
    by (apply off_unit_small; exact Ha).
  assert (HP : 0 < 2 ^ ulpExp n) by apply pow2_pos, ulpExp_nonneg.
  remember (2 ^ ulpExp n) as P eqn:EP. clear EP.
  assert (Hfl : n / P * P <= roundZ n).
  { destruct C as [[-> _]|[-> _]]; lia. }
  destruct (divide_dec P a HP) as [Hd|Hnd].
  - pose proof (floor_multiple P a n HP Hd Hle). lia.
  - destruct (Hoff Hnd) as [Hs [Hk Hn0]].
    destruct (mag_spec n Hn0) as [Hm _].
    destruct (Z.lt_ge_cases n 0) as [Hneg|Hpos]; [lia|].
    pose proof (floor_multiple P (2 ^ mag n) n HP Hpm ltac:(lia)). lia.
Qed.

Lemma roundZ_upper b n : onGrid b -> n <= b -> roundZ n <= b.
Proof.
  intros Hb Hle.
  pose proof (roundZ_cases n) as C. cbv zeta in C.
  pose proof (pow_mag_on_unit n) as Hpm.
  assert (Hoff : ~ (2 ^ ulpExp n | b) ->
                 Z.abs b < 2 ^ mag n /\ 0 < ulpExp n /\ n <> 0)
    by (apply off_unit_small; exact Hb).
  assert (HP : 0 < 2 ^ ulpExp n) by apply pow2_pos, ulpExp_nonneg.
  remember (2 ^ ulpExp n) as P eqn:EP. clear EP.
  pose proof (Z.div_mod n P ltac:(lia)) as E.
  pose proof (Z.mod_pos_bound n P HP) as B.
  assert (Hce : forall c, (P | c) -> n <= c -> roundZ n <= c).
  { intros c Hc Hn.
    destruct C as [[-> _]|[-> H]]; [nia|].
    apply ceil_multiple; auto. lia. }
  destruct (divide_dec P b HP) as [Hd|Hnd].
  - now apply Hce.
  - destruct (Hoff Hnd) as [Hs [Hk Hn0]].
    destruct (mag_spec n Hn0) as [Hm _].
    destruct (Z.lt_ge_cases 0 n) as [Hpos|Hneg]; [lia|].
    assert (Hc : roundZ n <= - 2 ^ mag n).
    { apply Hce; [|lia]. now apply Z.divide_opp_r. }
    lia.
Qed.

(** ** Which integers are doubles *)

Lemma mag_opp n : mag (- n) = mag n.
Proof. unfold mag. now rewrite Z.abs_opp. Qed.

Lemma ulpExp_opp n : ulpExp (- n) = ulpExp n.
Proof. unfold ulpExp. now rewrite mag_opp. Qed.

Lemma onGrid_opp n : onGrid n -> onGrid (- n).
Proof. unfold onGrid. rewrite ulpExp_opp. apply Z.divide_opp_r. Qed.

Lemma onGrid_0 : onGrid 0.
Proof. apply Z.divide_0_r. Qed.

Lemma ulpExp_mono a b : Z.abs a <= Z.abs b -> ulpExp a <= ulpExp b.
Proof.
  intros H. unfold ulpExp, mag.
  pose proof (Z.log2_le_mono _ _ H). lia.
Qed.

Lemma ulpExp_le v K : 0 <= K -> Z.abs v < 2 ^ (K + 53) -> ulpExp v <= K.
Proof.
  intros HK Hv. unfold ulpExp.
  destruct (mag_le_of_lt v (K + 53) ltac:(lia) Hv) as [H| ->]; [lia|].
  unfold mag. cbn. lia.
Qed.

Lemma onGrid_pow2 j : 0 <= j -> onGrid (2 ^ j).
Proof.
  intros Hj. unfold onGrid, ulpExp, mag.
  rewrite Z.abs_eq by (apply Z.pow_nonneg; lia).
  rewrite Z.log2_pow2 by exact Hj.
  apply pow2_divide. lia.
Qed.

(* a multiple of u's unit that is no larger than u is on the grid *)
Lemma grid_small u c : (2 ^ ulpExp u | c) -> Z.abs c <= Z.abs u -> onGrid c.
Proof.
  intros Hd Hle. unfold onGrid.
  eapply Z.divide_trans; [|exact Hd].
  apply pow2_divide. split; [apply ulpExp_nonneg|now apply ulpExp_mono].
Qed.

Lemma onGrid_coarser a b : onGrid b -> Z.abs a <= Z.abs b -> (2 ^ ulpExp a | b).
Proof.
  intros Hb Hle. eapply Z.divide_trans; [|exact Hb].
  apply pow2_divide. split; [apply ulpExp_nonneg|now apply ulpExp_mono].
Qed.

(* exact subtraction (Sterbenz) *)
Lemma onGrid_sub a b :
  onGrid a -> onGrid b ->
  Z.abs (a - b) <= Z.abs a -> Z.abs (a - b) <= Z.abs b -> onGrid (a - b).
Proof.
  intros Ha Hb H1 H2.
  destruct (Z.le_ge_cases (Z.abs a) (Z.abs b)) as [H|H].
  - apply (grid_small a); [|exact H1].
    apply Z.divide_sub_r; [exact Ha|now apply onGrid_coarser].
  - apply (grid_small b); [|exact H2].
    apply Z.divide_sub_r; [now apply onGrid_coarser|exact Hb].
Qed.

Lemma rem_small_abs a b : Z.abs a < b -> Z.rem a b = a.
Proof.
  intros H. destruct (Z.le_ge_cases 0 a) as [Hp|Hn].
  - apply Z.rem_small. lia.
  - replace a with (- (- a)) at 1 by lia.
    rewrite Z.rem_opp_l by lia. rewrite Z.rem_small by lia. lia.
Qed.

Lemma rem_bounds a b :
  0 < b -> Z.abs (Z.rem a b) < b /\ (0 <= a -> 0 <= Z.rem a b) /\
           (a <= 0 -> Z.rem a b <= 0).
Proof.
  intros Hb. pose proof (Z.rem_bound_abs a b ltac:(lia)) as H1.
  split; [lia|]. split; intros Ha.
  - apply Z.rem_nonneg; lia.
  - apply Z.rem_nonpos; lia.
Qed.

Lemma onGrid_rem a b : onGrid a -> onGrid b -> 0 < b -> onGrid (Z.rem a b).
Proof.
  intros Ha Hb Hpos.
  destruct (Z.lt_ge_cases (Z.abs a) b) as [Hs|Hl].
  - now rewrite rem_small_abs.
  - destruct (rem_bounds a b Hpos) as [Hr _].
    apply (grid_small b); [|lia].
    rewrite Z.rem_eq by lia.
    apply Z.divide_sub_r.
    + apply onGrid_coarser; [exact Ha|lia].
    + apply Z.divide_mul_l. exact Hb.
Qed.

Lemma roundZ_abs_le_pow n :
  n <> 0 -> - 2 ^ (mag n + 1) <= roundZ n <= 2 ^ (mag n + 1).
Proof.
  intros Hn. destruct (mag_spec n Hn) as [_ H].
  pose proof (mag_nonneg n).
  split.
  - apply roundZ_lower; [|lia]. apply onGrid_opp, onGrid_pow2. lia.
  - apply roundZ_upper; [|lia]. apply onGrid_pow2. lia.
Qed.

Lemma roundZ_grid n : onGrid (roundZ n).
Proof.
  destruct (Z.eq_dec n 0) as [->|Hn].
  { rewrite roundZ_id; apply onGrid_0. }
  pose proof (roundZ_abs_le_pow n Hn) as Hb.
  pose proof (mag_nonneg n) as Hm.
  assert (Hd : (2 ^ ulpExp n | roundZ n)).
  { destruct (roundZ_cases n) as [[-> _]|[-> _]]; apply Z.divide_factor_r. }
  destruct (Z.eq_dec (Z.abs (roundZ n)) (2 ^ (mag n + 1))) as [E|E].
  - destruct (Z.abs_eq_or_opp (roundZ n)) as [E'|E'].
    + rewrite <- E', E. apply onGrid_pow2. lia.
    + replace (roundZ n) with (- 2 ^ (mag n + 1)) by lia.
      apply onGrid_opp, onGrid_pow2. lia.
  - unfold onGrid. eapply Z.divide_trans; [|exact Hd].
    apply pow2_divide. split; [apply ulpExp_nonneg|].
    destruct (Z.eq_dec (roundZ n) 0) as [E0|E0].
    { rewrite E0. unfold ulpExp at 1, mag at 1. cbn. apply ulpExp_nonneg. }
    unfold ulpExp.
    assert (mag (roundZ n) <= mag n); [|lia].
    assert (Z.abs (roundZ n) < 2 ^ (mag n + 1)) by lia.
    destruct (mag_le_of_lt (roundZ n) (mag n + 1) ltac:(lia) H); lia.
Qed.

Lemma onGridb_spec n : onGridb n = true <-> onGrid n.
Proof.
  unfold onGridb, onGrid. rewrite Z.eqb_eq.
  pose proof (pow2_pos _ (ulpExp_nonneg n)).
  split; intros H0.
  - apply Z.mod_divide; [lia|exact H0].
  - apply Z.mod_divide; [lia|exact H0].
Qed.

Lemma representableb_spec n : representableb n = true <-> representable n.
Proof.
  unfold representableb, representable.
  rewrite andb_true_iff, Z.ltb_lt. fold (onGridb n). now rewrite onGridb_spec.
Qed.

Lemma pow_2098 : 2 ^ 2098 = 2 ^ 53 * 2 ^ 2045.
Proof. rewrite <- Z.pow_add_r by lia. reflexivity. Qed.

Lemma representable_le_max a : representable a -> Z.abs a <= maxFinite.
Proof.
  intros [Hg Hb]. unfold maxFinite.
  destruct (Z.eq_dec a 0) as [->|Ha].
  { cbn [Z.abs]. rewrite pow_2098. pose proof (pow2_pos 2045 ltac:(lia)). lia. }
  destruct (mag_spec a Ha) as [Hlo Hhi].
  assert (Hm : mag a <= 2097).
  { destruct (mag_le_of_lt a 2098 ltac:(lia) Hb); lia. }
  destruct (Z.eq_dec (mag a) 2097) as [E|E].
  - unfold onGrid, ulpExp in Hg. rewrite E in Hg.
    replace (Z.max (2097 - 52) 0) with 2045 in Hg by lia.
    destruct Hg as [z Hz]. rewrite pow_2098 in *.
    pose proof (pow2_pos 2045 ltac:(lia)) as HP.
    remember (2 ^ 2045) as P. nia.
  - assert (Z.abs a < 2 ^ 2097) by (apply mag_lt; [exact Ha|lia]).
    assert (2 ^ 2097 = 2 ^ 52 * 2 ^ 2045)
      by (rewrite <- Z.pow_add_r by lia; reflexivity).
    rewrite pow_2098. pose proof (pow2_pos 2045 ltac:(lia)) as HP.
    remember (2 ^ 2045) as P. nia.
Qed.

Lemma maxFinite_eq : maxFinite = (2 ^ 53 - 1) * 2 ^ 2045.
Proof. apply Z.eqb_eq. vm_compute. reflexivity. Qed.

Lemma onGrid_maxFinite : onGrid maxFinite.
Proof. apply onGridb_spec. vm_compute. reflexivity. Qed.

(* just above the largest finite value, rounding comes back to it *)
Lemma roundZ_above_max n :
  maxFinite <= n < maxFinite + 2 ^ 2044 -> roundZ n = maxFinite.
Proof.
  intros Hn.
  pose proof maxFinite_eq as HM.
  assert (E44 : 2 ^ 2045 = 2 * 2 ^ 2044)
    by (rewrite <- Z.pow_succ_r by lia; reflexivity).
  assert (E97 : 2 ^ 2097 = 2 ^ 52 * 2 ^ 2045)
    by (rewrite <- Z.pow_add_r by lia; reflexivity).
  pose proof (pow2_pos 2044 ltac:(lia)) as HP.
  assert (Hmag : mag n = 2097).
  { unfold mag. apply Z.log2_unique; [lia|].
    change (Z.succ 2097) with 2098. rewrite pow_2098. lia. }
  assert (Hu : ulpExp n = 2045) by (unfold ulpExp; lia).
  pose proof (roundZ_cases n) as C. cbv zeta in C. rewrite Hu in C.
  assert (Hq : n / 2 ^ 2045 = 2 ^ 53 - 1 /\ n mod 2 ^ 2045 = n - maxFinite).
  { assert (U := Z.div_mod_unique (2 ^ 2045) (n / 2 ^ 2045) (2 ^ 53 - 1)
                  (n mod 2 ^ 2045) (n - maxFinite)).
    pose proof (Z.div_mod n (2 ^ 2045) ltac:(lia)) as D.
    pose proof (Z.mod_pos_bound n (2 ^ 2045) ltac:(lia)) as B.
    destruct U as [U1 U2]; [left; lia|left; lia|lia|]. split; congruence. }
  destruct Hq as [Hq Hr]. rewrite Hq, Hr in C.
  destruct C as [[-> _]|[_ C]]; lia.
Qed.

Lemma roundZ_below_min n :
  - maxFinite - 2 ^ 2044 < n <= - maxFinite -> roundZ n = - maxFinite.
Proof.
  intros Hn.
  pose proof maxFinite_eq as HM.
  assert (E44 : 2 ^ 2045 = 2 * 2 ^ 2044)
    by (rewrite <- Z.pow_succ_r by lia; reflexivity).
  assert (E97 : 2 ^ 2097 = 2 ^ 52 * 2 ^ 2045)
    by (rewrite <- Z.pow_add_r by lia; reflexivity).
  pose proof (pow2_pos 2044 ltac:(lia)) as HP.
  destruct (Z.eq_dec n (- maxFinite)) as [->|Hne].
  { apply roundZ_id, onGrid_opp, onGrid_maxFinite. }
  assert (Hmag : mag n = 2097).
  { unfold mag. apply Z.log2_unique; [lia|].
    change (Z.succ 2097) with 2098. rewrite pow_2098. lia. }
  assert (Hu : ulpExp n = 2045) by (unfold ulpExp; lia).
  pose proof (roundZ_cases n) as C. cbv zeta in C. rewrite Hu in C.
  assert (Hq : n / 2 ^ 2045 = - 2 ^ 53 /\
               n mod 2 ^ 2045 = n + 2 ^ 53 * 2 ^ 2045).
  { pose proof (Z.div_mod n (2 ^ 2045) ltac:(lia)) as D.
    pose proof (Z.mod_pos_bound n (2 ^ 2045) ltac:(lia)) as B.
    assert (U := Z.div_mod_unique (2 ^ 2045) (n / 2 ^ 2045) (- 2 ^ 53)
                  (n mod 2 ^ 2045) (n + 2 ^ 53 * 2 ^ 2045)).
    destruct U as [U1 U2]; [left; lia|left; lia|lia|]. split; congruence. }
  destruct Hq as [Hq Hr]. rewrite Hq, Hr in C.
  destruct C as [[_ C]|[-> _]]; lia.
Qed.

Lemma roundZ_add_small a c :
  representable a -> Z.abs c < 2 ^ 2044 ->
  Z.abs (roundZ (a + c)) < 2 ^ 2098.
Proof.
  intros Ha Hc. pose proof (representable_le_max a Ha) as Hm.
  pose proof (pow2_pos 2045 ltac:(lia)) as HP.
  assert (Hlt : maxFinite < 2 ^ 2098) by (unfold maxFinite; lia).
  destruct (Z.le_gt_cases (a + c) maxFinite) as [Hu|Hu].
  - destruct (Z.le_gt_cases (- maxFinite) (a + c)) as [Hl|Hl].
    + pose proof (roundZ_upper _ _ onGrid_maxFinite Hu).
      pose proof (roundZ_lower _ _ (onGrid_opp _ onGrid_maxFinite) Hl). lia.
    + rewrite roundZ_below_min by lia. lia.
  - rewrite roundZ_above_max by lia. lia.
Qed.

(** ** Rounding without overflow *)

Lemma round_fin n : Z.abs (roundZ n) < 2 ^ 2098 -> round n = Fin (roundZ n).
Proof.
  intros H. unfold round, overflow.
  destruct (Z.leb_spec (2 ^ 2098) (Z.abs (roundZ n))); [lia|reflexivity].
Qed.

Lemma round_bracket lo hi n :
  representable lo -> representable hi -> lo <= n <= hi ->
  round n = Fin (roundZ n) /\ lo <= roundZ n <= hi.
Proof.
  intros [Gl Bl] [Gh Bh] [Hl Hh].
  pose proof (roundZ_lower lo n Gl Hl). pose proof (roundZ_upper hi n Gh Hh).
  split; [|lia]. apply round_fin. lia.
Qed.

Lemma nPi_range : 2 ^ 1075 < nPi < 2 ^ 1076.
Proof. split; apply Z.ltb_lt; vm_compute; reflexivity. Qed.

Lemma onGrid_nPi : onGrid nPi.
Proof. apply onGridb_spec. vm_compute. reflexivity. Qed.

Lemma onGrid_2nPi : onGrid (2 * nPi).
Proof. apply onGridb_spec. vm_compute. reflexivity. Qed.

Lemma onGrid_half_nPi : onGrid (nPi / 2) /\ 2 * (nPi / 2) = nPi.
Proof.
  split; [apply onGridb_spec|apply Z.eqb_eq]; vm_compute; reflexivity.
Qed.

Lemma pow_facts :
  2 ^ 1076 < 2 ^ 2044 /\ 2 * 2 ^ 1076 < 2 ^ 2098 /\ 2 ^ 1075 * 2 = 2 ^ 1076.
Proof. vm_compute. repeat split. Qed.

Lemma representable_small n : onGrid n -> Z.abs n <= 2 * nPi -> representable n.
Proof.
  intros Hg Hb. split; [exact Hg|].
  pose proof nPi_range. pose proof pow_facts. lia.
Qed.

Lemma M_PI_eq : M_PI = Fin nPi.
Proof. vm_compute. reflexivity. Qed.

Lemma TWO_PI_eq : dmul (ofInt 2) M_PI = Fin (2 * nPi).
Proof. vm_compute. reflexivity. Qed.

Lemma ZERO_eq : ofInt 0 = Fin 0.
Proof. vm_compute. reflexivity. Qed.

End Rounding.

(* ===================================================================== *)
(** * Properties of the helpers on binary64 *)
(* ===================================================================== *)

Module Binary64Facts.

Import Binary64 Rounding.
Local Open Scope Z_scope.

(** ** The shared tail of [constrainAngle] and [angleDiff] *)

Lemma tailZ_eq t : tailZ t = roundZ (liftZ (Z.rem t (2 * nPi)) - nPi).
Proof. reflexivity. Qed.

Lemma two_nPi_pos : 0 < 2 * nPi.
Proof. pose proof nPi_range. pose proof (pow2_pos 1075 ltac:(lia)). lia. Qed.

Lemma liftZ_range r0 : Z.abs r0 < 2 * nPi -> 0 <= liftZ r0 <= 2 * nPi.
Proof.
  intros H. unfold liftZ. destruct (Z.ltb_spec r0 0) as [Hn|Hp]; [|lia].
  split.
  - apply roundZ_lower; [apply onGrid_0|lia].
  - apply roundZ_upper; [apply onGrid_2nPi|lia].
Qed.

Lemma liftZ_grid r0 : onGrid r0 -> onGrid (liftZ r0).
Proof.
  intros H. unfold liftZ. destruct (r0 <? 0); [apply roundZ_grid|exact H].
Qed.

Lemma half_ulp_bound v K E :
  0 <= K -> Z.abs v < 2 ^ (K + 53) -> 2 * E = 2 ^ K ->
  Z.abs (roundZ v - v) <= E.
Proof.
  intros HK Hv HE. pose proof (roundZ_error v) as Hr.
  pose proof (ulpExp_le v K HK Hv) as Hu.
  pose proof (Z.pow_le_mono_r 2 (ulpExp v) K ltac:(lia) Hu). lia.
Qed.

Lemma pow_1077 : 2 * nPi < 2 ^ (1024 + 53) /\ nPi < 2 ^ (1023 + 53).
Proof. split; apply Z.ltb_lt; vm_compute; reflexivity. Qed.

Lemma liftZ_error r0 :
  Z.abs r0 < 2 * nPi ->
  exists j, 0 <= j <= 1 /\ Z.abs (liftZ r0 - (r0 + j * (2 * nPi))) <= 2 ^ 1023.
Proof.
  intros H. unfold liftZ. pose proof (pow2_pos 1023 ltac:(lia)).
  destruct (Z.ltb_spec r0 0) as [Hn|Hp].
  - exists 1. split; [lia|]. rewrite Z.mul_1_l.
    apply (half_ulp_bound _ 1024); [lia| |reflexivity].
    pose proof pow_1077. lia.
  - exists 0. split; [lia|]. rewrite Z.mul_0_l, Z.add_0_r, Z.sub_diag. cbn. lia.
Qed.

Lemma sub_pi_range r : 0 <= r <= 2 * nPi -> - nPi <= roundZ (r - nPi) <= nPi.
Proof.
  intros H. split.
  - apply roundZ_lower; [apply onGrid_opp, onGrid_nPi|lia].
  - apply roundZ_upper; [apply onGrid_nPi|lia].
Qed.

Lemma sub_pi_error r :
  0 <= r <= 2 * nPi -> Z.abs (roundZ (r - nPi) - (r - nPi)) <= 2 ^ 1022.
Proof.
  intros H. apply (half_ulp_bound _ 1023); [lia| |reflexivity].
  pose proof pow_1077. lia.
Qed.

Lemma rem_2nPi t :
  Z.abs (Z.rem t (2 * nPi)) < 2 * nPi /\
  Z.rem t (2 * nPi) = t - 2 * nPi * Z.quot t (2 * nPi).
Proof.
  pose proof two_nPi_pos as Hp.
  split; [apply rem_bounds; exact Hp|]. apply Z.rem_eq. lia.
Qed.

Lemma tailZ_range t : - nPi <= tailZ t <= nPi.
Proof.
  rewrite tailZ_eq. apply sub_pi_range, liftZ_range, rem_2nPi.
Qed.

Lemma tailZ_grid t : onGrid (tailZ t).
Proof. rewrite tailZ_eq. apply roundZ_grid. Qed.

Lemma tailZ_representable t : representable (tailZ t).
Proof.
  apply representable_small; [apply tailZ_grid|].
  pose proof (tailZ_range t). pose proof two_nPi_pos. lia.
Qed.

Lemma tailZ_congruent t :
  exists k, Z.abs (tailZ t - (t - nPi - k * (2 * nPi))) <= 3 * 2 ^ 1022.
Proof.
  destruct (rem_2nPi t) as [Hb He].
  destruct (liftZ_error _ Hb) as [j [Hj Hl]].
  pose proof (sub_pi_error _ (liftZ_range _ Hb)) as Hs.
  rewrite tailZ_eq. exists (Z.quot t (2 * nPi) - j).
  assert (E : 2 ^ 1023 = 2 * 2 ^ 1022) by reflexivity.
  remember (Z.rem t (2 * nPi)) as r0 eqn:Er0. clear Er0.
  remember (liftZ r0) as r eqn:Er. clear Er.
  remember (Z.quot t (2 * nPi)) as q eqn:Eq. clear Eq.
  remember (roundZ (r - nPi)) as y eqn:Ey. clear Ey.
  subst r0. nia.
Qed.

(** ** The helpers on finite doubles *)

Lemma overflow_small n : Z.abs n <= 2 * nPi -> overflow n = Fin n.
Proof.
  intros H. unfold overflow. pose proof nPi_range. pose proof pow_facts.
  destruct (Z.leb_spec (2 ^ 2098) (Z.abs n)); [lia|reflexivity].
Qed.

Lemma tail_eval t :
  dsub (if dlt (fmod (Fin t) (Fin (2 * nPi))) (Fin 0)
        then dadd (fmod (Fin t) (Fin (2 * nPi))) (Fin (2 * nPi))
        else fmod (Fin t) (Fin (2 * nPi)))
       (Fin nPi) = Fin (tailZ t).
Proof.
  pose proof two_nPi_pos as Hp. destruct (rem_2nPi t) as [Hb _].
  pose proof (liftZ_range _ Hb) as Hl.
  pose proof (tailZ_range t) as Ht.
  cbn [fmod]. destruct (Z.eqb_spec (2 * nPi) 0) as [E|_]; [lia|].
  cbn [dlt]. rewrite tailZ_eq in *. unfold liftZ in *.
  destruct (Z.rem t (2 * nPi) <? 0) eqn:Hs.
  - cbn [dadd]. unfold round. rewrite overflow_small by lia.
    cbn [dsub dneg dadd]. unfold round.
    rewrite Z.add_opp_r. apply overflow_small. lia.
  - cbn [dsub dneg dadd]. unfold round.
    rewrite Z.add_opp_r. apply overflow_small. lia.
Qed.

Lemma constrainAngle_tail x : constrainAngle x = tailD (dadd x M_PI).
Proof.
  unfold constrainAngle. cbv zeta. rewrite TWO_PI_eq, ZERO_eq.
  destruct (dadd x M_PI) as [t| |]; cbn [tailD].
  - rewrite M_PI_eq. apply tail_eval.
  - reflexivity.
  - reflexivity.
Qed.

Lemma angleDiff_tail a b : angleDiff a b = tailD (dadd (dsub b a) M_PI).
Proof.
  unfold angleDiff. cbv zeta. rewrite TWO_PI_eq, ZERO_eq.
  destruct (dadd (dsub b a) M_PI) as [t| |]; cbn [tailD].
  - rewrite M_PI_eq. apply tail_eval.
  - reflexivity.
  - reflexivity.
Qed.

Lemma add_pi_fin x :
  representable x ->
  dadd (Fin x) M_PI = Fin (roundZ (x + nPi)) /\
  representable (roundZ (x + nPi)).
Proof.
  intros Hx. rewrite M_PI_eq. cbn [dadd].
  assert (Hb : Z.abs (roundZ (x + nPi)) < 2 ^ 2098).
  { apply roundZ_add_small; [exact Hx|].
    pose proof nPi_range. pose proof pow_facts. lia. }
  split; [now apply round_fin|]. split; [apply roundZ_grid|exact Hb].
Qed.

Lemma constrainAngle_fin x :
  representable x -> constrainAngle (Fin x) = Fin (tailZ (roundZ (x + nPi))).
Proof.
  intros Hx. rewrite constrainAngle_tail.
  destruct (add_pi_fin x Hx) as [-> _]. reflexivity.
Qed.

Lemma scale_pos : (0 < 2 ^ 1074)%R.
Proof. apply pow_lt. lra. Qed.

Lemma toR_le a b : a <= b -> (toR a <= toR b)%R.
Proof.
  intros H. unfold toR. apply IZR_le in H. pose proof scale_pos.
  apply Rmult_le_compat_r; [|exact H]. left. now apply Rinv_0_lt_compat.
Qed.

Lemma toR_opp a : toR (- a) = (- toR a)%R.
Proof. unfold toR, Rdiv. rewrite opp_IZR. ring. Qed.

Lemma toR_nPi : toR nPi = (884279719003555 / 2 ^ 48)%R.
Proof.
  unfold toR, nPi. rewrite mult_IZR.
  change 1026 with (Z.of_nat 1026). rewrite <- pow_IZR.
  replace 1074%nat with (1026 + 48)%nat by reflexivity. rewrite pow_add.
  assert (0 < 2 ^ 1026)%R by (apply pow_lt; lra).
  assert (0 < 2 ^ 48)%R by (apply pow_lt; lra).
  field.
Qed.

Lemma PI_above_M_PI : (toR nPi < PI)%R.
Proof.
  rewrite toR_nPi.
  pose proof (PI_2_3_7_ineq 8) as [H _].
  unfold tg_alt, PI_2_3_7_tg, Ratan_seq in H.
  cbn [sum_f_R0 Nat.mul Nat.add pow INR] in H.
  lra.
Qed.

Lemma principal_real n : - nPi <= n <= nPi -> (- PI < toR n <= PI)%R.
Proof.
  intros [Hl Hh]. pose proof PI_above_M_PI as Hp.
  apply toR_le in Hl, Hh. rewrite toR_opp in Hl. lra.
Qed.

Lemma isFinite_inv x :
  isFinite x = true -> exists n, x = Fin n /\ representable n.
Proof.
  destruct x as [n| |]; cbn; try discriminate.
  intros H. exists n. split; [reflexivity|now apply representableb_spec].
Qed.

(** ** The claims about the helpers on doubles *)

(** C2: for every finite double, [constrainAngle] (the specification's
    normalize) returns a finite double whose value is strictly greater
    than minus pi and at most pi; it lies between [- M_PI] and [M_PI], both
    included, and [M_PI] is below pi. *)
Theorem constrainAngle_in_principal_range (x : double) :
  isFinite x = true ->
  isFinite (constrainAngle x) = true /\
  (- toReal M_PI <= toReal (constrainAngle x) <= toReal M_PI)%R /\
  (- PI < toReal (constrainAngle x) <= PI)%R.
Proof.
  intros Hx. destruct (isFinite_inv x Hx) as [a [-> Ha]].
  rewrite (constrainAngle_fin a Ha), M_PI_eq. cbn [toReal].
  pose proof (tailZ_range (roundZ (a + nPi))) as Hr.
  split; [apply representableb_spec, tailZ_representable|].
  split; [|now apply principal_real].
  destruct Hr as [Hl Hh]. apply toR_le in Hl, Hh. rewrite toR_opp in Hl.
  lra.
Qed.

(** *** Normalising twice *)

Lemma tailZ_shape t :
  onGrid t ->
  exists r, onGrid r /\ 0 <= r <= 2 * nPi /\ tailZ t = roundZ (r - nPi).
Proof.
  intros Ht. destruct (rem_2nPi t) as [Hb _].
  exists (liftZ (Z.rem t (2 * nPi))). split; [|split].
  - apply liftZ_grid, onGrid_rem; [exact Ht|apply onGrid_2nPi|apply two_nPi_pos].
  - now apply liftZ_range.
  - apply tailZ_eq.
Qed.

Lemma tailZ_fixed r' :
  0 <= r' < 2 * nPi -> tailZ r' = roundZ (r' - nPi).
Proof.
  intros H. rewrite tailZ_eq. rewrite rem_small_abs by lia.
  unfold liftZ. destruct (Z.ltb_spec r' 0); [lia|reflexivity].
Qed.

Lemma renormalise r :
  onGrid r -> 0 <= r <= 2 * nPi ->
  roundZ (r - nPi) <> nPi ->
  tailZ (roundZ (roundZ (r - nPi) + nPi)) = roundZ (r - nPi).
Proof.
  intros Hg Hr Hne.
  destruct onGrid_half_nPi as [Hh Eh].
  pose proof nPi_range as Hpi. pose proof (pow2_pos 1075 ltac:(lia)) as Hp.
  destruct (Z.le_gt_cases (nPi / 2) r) as [Hbig|Hsmall].
  - (* r - nPi is exact *)
    assert (Hex : onGrid (r - nPi)).
    { apply onGrid_sub; [exact Hg|apply onGrid_nPi| |]; lia. }
    rewrite (roundZ_id _ Hex) in *.
    replace (r - nPi + nPi) with r by lia.
    rewrite (roundZ_id _ Hg). rewrite tailZ_fixed by lia.
    now apply roundZ_id.
  - (* the result is at least a quarter turn below zero *)
    set (y := roundZ (r - nPi)) in *.
    assert (Hy : - nPi <= y <= - (nPi / 2)).
    { split.
      - apply roundZ_lower; [apply onGrid_opp, onGrid_nPi|lia].
      - apply roundZ_upper; [apply onGrid_opp, Hh|lia]. }
    assert (Hyg : onGrid y) by apply roundZ_grid.
    assert (Hex : onGrid (y + nPi)).
    { replace (y + nPi) with (nPi - (- y)) by lia.
      apply onGrid_sub; [apply onGrid_nPi|now apply onGrid_opp| |]; lia. }
    rewrite (roundZ_id _ Hex). rewrite tailZ_fixed by lia.
    replace (y + nPi - nPi) with y by lia. now apply roundZ_id.
Qed.

(** C3, amended: [constrainAngle] is idempotent at every finite double
    whose image is not [M_PI]: if [constrainAngle x] differs from [M_PI],
    then [constrainAngle (constrainAngle x)] is [constrainAngle x]. *)
Theorem constrainAngle_idempotent_below_M_PI (x : double) :
  isFinite x = true ->
  constrainAngle x <> M_PI ->
  constrainAngle (constrainAngle x) = constrainAngle x.
Proof.
  intros Hx Hne. destruct (isFinite_inv x Hx) as [a [-> Ha]].
  destruct (add_pi_fin a Ha) as [_ [Hg _]].
  rewrite (constrainAngle_fin a Ha) in *.
  rewrite constrainAngle_fin by apply tailZ_representable.
  destruct (tailZ_shape _ Hg) as [r [Hrg [Hr E]]].
  rewrite E in *. f_equal. apply renormalise; auto.
  intros Heq. apply Hne. rewrite M_PI_eq. now f_equal.
Qed.

Lemma angleConv_constrainAngle x : angleConv x = constrainAngle x.
Proof.
  unfold angleConv. rewrite TWO_PI_eq, constrainAngle_tail.
  destruct (dadd x M_PI) as [t| |]; cbn [tailD fmod]; try reflexivity.
  pose proof two_nPi_pos as Hp. pose proof (tailZ_range t) as Hr.
  destruct (Z.eqb_spec (2 * nPi) 0) as [E|_]; [lia|].
  f_equal. apply rem_small_abs. lia.
Qed.

Lemma nPi_small : Z.abs nPi < 2 ^ 2044.
Proof. pose proof nPi_range. pose proof pow_facts. lia. Qed.

Lemma dsub_fin b a :
  dsub (Fin b) (Fin a) = overflow (roundZ (b - a)).
Proof. cbn [dsub dneg dadd]. unfold round. now rewrite Z.add_opp_r. Qed.

Lemma overflow_fin n : Z.abs n < 2 ^ 2098 -> overflow n = Fin n.
Proof.
  intros H. unfold overflow.
  destruct (Z.leb_spec (2 ^ 2098) (Z.abs n)); [lia|reflexivity].
Qed.


Lemma angleDiff_fin a b :
  representable a -> Z.abs (roundZ (b - a)) < 2 ^ 2098 ->
  angleDiff (Fin a) (Fin b) =
  Fin (tailZ (roundZ (roundZ (b - a) + nPi))).
Proof.
  intros Ha Hd. rewrite angleDiff_tail, dsub_fin, overflow_fin by exact Hd.
  destruct (add_pi_fin (roundZ (b - a))) as [-> _]; [|reflexivity].
  split; [apply roundZ_grid|exact Hd].
Qed.


(** ** Rounding errors at bounded magnitude *)

Lemma round_err_1096 v : Z.abs v < 2 ^ 1096 -> Z.abs (roundZ v - v) <= 2 ^ 1042.
Proof.
  intros H. apply (half_ulp_bound v 1043); [lia|exact H|reflexivity].
Qed.

Lemma roundZ_abs_pow v j : 0 <= j -> Z.abs v <= 2 ^ j -> Z.abs (roundZ v) <= 2 ^ j.
Proof.
  intros Hj Hv.
  pose proof (roundZ_lower (- 2 ^ j) v (onGrid_opp _ (onGrid_pow2 j Hj))
                ltac:(lia)).
  pose proof (roundZ_upper (2 ^ j) v (onGrid_pow2 j Hj) ltac:(lia)). lia.
Qed.

Lemma nPi_tight : 3 * 2 ^ 1074 < nPi < 4 * 2 ^ 1074.
Proof. split; apply Z.ltb_lt; vm_compute; reflexivity. Qed.

(* how many turns fit in a given magnitude *)
Lemma turns_bound k X :
  Z.abs (k * (2 * nPi)) <= X * 2 ^ 1074 -> 6 * Z.abs k <= X.
Proof.
  intros H. pose proof nPi_tight as [Hn _].
  assert (Hp : 0 < 2 ^ 1074) by (apply pow2_pos; lia).
  remember (2 ^ 1074) as S eqn:ES. clear ES.
  rewrite Z.abs_mul in H. rewrite (Z.abs_eq (2 * nPi)) in H by lia.
  assert (H6 : Z.abs k * (6 * S) <= Z.abs k * (2 * nPi))
    by (apply Z.mul_le_mono_nonneg_l; lia).
  apply (Z.mul_le_mono_pos_r _ _ S Hp). lia.
Qed.

(** ** From scaled integers to reals *)

Lemma toR_sub a b : toR (a - b) = (toR a - toR b)%R.
Proof. unfold toR, Rdiv. rewrite minus_IZR. ring. Qed.

Lemma toR_add a b : toR (a + b) = (toR a + toR b)%R.
Proof. unfold toR, Rdiv. rewrite plus_IZR. ring. Qed.

Lemma toR_mul k a : toR (k * a) = (IZR k * toR a)%R.
Proof. unfold toR, Rdiv. rewrite mult_IZR. ring. Qed.

Lemma toR_pow2 (i j : nat) :
  (i + j = 1074)%nat -> toR (2 ^ Z.of_nat i) = (/ 2 ^ j)%R.
Proof.
  intros E. unfold toR. rewrite <- pow_IZR. rewrite <- E, pow_add.
  assert (0 < 2 ^ i)%R by (apply pow_lt; lra).
  assert (0 < 2 ^ j)%R by (apply pow_lt; lra).
  field. lra.
Qed.

Lemma toR_abs_le a E : Z.abs a <= E -> (Rabs (toR a) <= toR E)%R.
Proof.
  intros H. apply Rabs_le. split.
  - rewrite <- toR_opp. apply toR_le. lia.
  - apply toR_le. lia.
Qed.

Lemma PI_below : (PI < toR nPi + / 2 ^ 52)%R.
Proof.
  rewrite toR_nPi.
  pose proof (PI_2_3_7_ineq 8) as [_ H].
  unfold tg_alt, PI_2_3_7_tg, Ratan_seq in H.
  cbn [sum_f_R0 Nat.mul Nat.add pow INR] in H.
  cbn [pow]. lra.
Qed.

Lemma turn_gap k :
  Z.abs k <= 2 ^ 20 ->
  (Rabs (IZR k * (2 * PI) - IZR k * (2 * toR nPi)) <= / 2 ^ 31)%R.
Proof.
  intros Hk. pose proof PI_above_M_PI as H1. pose proof PI_below as H2.
  assert (Hl : (- 2 ^ 20 <= IZR k)%R).
  { change (2 ^ 20)%R with (pow (IZR 2) 20). rewrite pow_IZR, <- opp_IZR.
    apply IZR_le. change (Z.of_nat 20) with 20. lia. }
  assert (Hh : (IZR k <= 2 ^ 20)%R).
  { change (2 ^ 20)%R with (pow (IZR 2) 20). rewrite pow_IZR.
    apply IZR_le. change (Z.of_nat 20) with 20. lia. }
  set (d := (PI - toR nPi)%R) in *.
  replace (IZR k * (2 * PI) - IZR k * (2 * toR nPi))%R
    with (IZR k * (2 * d))%R by (unfold d; ring).
  assert (Hd : (0 < d < / 2 ^ 52)%R) by (unfold d; lra).
  cbn [pow] in *. apply Rabs_le. split; nra.
Qed.

(* an absolute error on scaled integers, read in radians with the real pi *)
Lemma approx_real u v k E :
  Z.abs (u - (v + k * (2 * nPi))) <= E -> Z.abs k <= 2 ^ 20 ->
  (Rabs (toR u - (toR v + IZR k * (2 * PI))) <= toR E + / 2 ^ 31)%R.
Proof.
  intros He Hk. apply toR_abs_le in He.
  rewrite toR_sub, toR_add, toR_mul in He.
  replace (toR (2 * nPi)) with (2 * toR nPi)%R in He
    by (rewrite toR_mul; reflexivity).
  pose proof (turn_gap k Hk) as Hg.
  replace (toR u - (toR v + IZR k * (2 * PI)))%R
    with ((toR u - (toR v + IZR k * (2 * toR nPi)))
          - (IZR k * (2 * PI) - IZR k * (2 * toR nPi)))%R by ring.
  eapply Rle_trans; [apply Rabs_triang|]. rewrite Rabs_Ropp.
  lra.
Qed.

(* powers of two used below, in units of W = 2^1022 *)
Lemma pow_units :
  2 ^ 1042 = 2 ^ 20 * 2 ^ 1022 /\ 2 ^ 1044 = 2 ^ 22 * 2 ^ 1022 /\
  2 ^ 1045 = 2 ^ 23 * 2 ^ 1022 /\ 2 ^ 1074 = 2 ^ 52 * 2 ^ 1022 /\
  2 ^ 1094 = 2 ^ 72 * 2 ^ 1022 /\ 2 ^ 1095 = 2 ^ 73 * 2 ^ 1022 /\
  2 ^ 1096 = 2 ^ 74 * 2 ^ 1022 /\ 0 < 2 ^ 1022.
Proof. vm_compute. repeat split. Qed.

Ltac in_units W :=
  let T := fresh "T" in
  pose proof pow_units as T;
  destruct T as (?T & ?T & ?T & ?T & ?T & ?T & ?T & ?T);
  pose proof nPi_tight;
  repeat match goal with
         | E : 2 ^ _ = _ * 2 ^ 1022 |- _ => rewrite E in *; clear E
         end;
  remember (2 ^ 1022) as W;
  change (2 ^ 20) with 1048576 in *; change (2 ^ 22) with 4194304 in *;
  change (2 ^ 23) with 8388608 in *;
  change (2 ^ 52) with 4503599627370496 in *;
  change (2 ^ 72) with 4722366482869645213696 in *;
  change (2 ^ 73) with 9444732965739290427392 in *;
  change (2 ^ 74) with 18889465931478580854784 in *.

Lemma angleDiff_error a b :
  Z.abs a <= 2 ^ 1094 -> Z.abs b <= 2 ^ 1094 ->
  exists k,
    Z.abs (tailZ (roundZ (roundZ (b - a) + nPi)) - (b - a + k * (2 * nPi)))
      <= 2 ^ 1044 /\
    Z.abs k <= 2 ^ 20.
Proof.
  intros Ha Hb.
  assert (Hd : Z.abs (b - a) <= 2 ^ 1095).
  { pose proof pow_units as (_ & _ & _ & _ & T1 & T2 & _ & T3). lia. }
  pose proof (roundZ_abs_pow _ 1095 ltac:(lia) Hd) as Hd0.
  assert (He1 : Z.abs (roundZ (b - a) - (b - a)) <= 2 ^ 1042).
  { apply round_err_1096.
    pose proof pow_units as (_ & _ & _ & _ & _ & T2 & T3 & T4). lia. }
  assert (He2 : Z.abs (roundZ (roundZ (b - a) + nPi)
                       - (roundZ (b - a) + nPi)) <= 2 ^ 1042).
  { apply round_err_1096. pose proof nPi_tight.
    pose proof pow_units as (_ & _ & _ & T1 & _ & T2 & T3 & T4). lia. }
  destruct (tailZ_congruent (roundZ (roundZ (b - a) + nPi))) as [k Hk].
  pose proof (tailZ_range (roundZ (roundZ (b - a) + nPi))) as Hr.
  remember (tailZ (roundZ (roundZ (b - a) + nPi))) as n eqn:En. clear En.
  remember (roundZ (roundZ (b - a) + nPi)) as t eqn:Et. clear Et.
  remember (roundZ (b - a)) as d0 eqn:Ed. clear Ed.
  exists (- k).
  assert (Hsum : Z.abs (n - (b - a + - k * (2 * nPi))) <= 2 ^ 1044)
    by (in_units W; lia).
  split; [exact Hsum|].
  assert (Hturn : Z.abs (- k * (2 * nPi)) <= (2 ^ 21 + 5) * 2 ^ 1074).
  { change (2 ^ 21 + 5) with 2097157. in_units W. lia. }
  apply turns_bound in Hturn. change (2 ^ 21 + 5) with 2097157 in Hturn.
  change (2 ^ 20) with 1048576. lia.
Qed.

Lemma magnitude_inv x a :
  x = Fin a -> magnitudeAtMost 20 x = true -> Z.abs a <= 2 ^ 1094.
Proof. intros ->. cbn [magnitudeAtMost]. intros H. now apply Z.leb_le in H. Qed.

Lemma tolerance_30_31 : (toR (2 ^ 1044) + / 2 ^ 31 <= / 2 ^ 29)%R.
Proof.
  change 1044 with (Z.of_nat 1044). rewrite (toR_pow2 1044 30) by reflexivity.
  cbn [pow]. lra.
Qed.

Lemma tolerance_29_31 : (toR (2 ^ 1045) + / 2 ^ 31 <= / 2 ^ 28)%R.
Proof.
  change 1045 with (Z.of_nat 1045). rewrite (toR_pow2 1045 29) by reflexivity.
  cbn [pow]. lra.
Qed.

Lemma tolerance_32 : toR (2 ^ 1042) = (/ 2 ^ 32)%R.
Proof. change 1042 with (Z.of_nat 1042). now rewrite (toR_pow2 1042 32). Qed.

Lemma Rabs_bounds x a : (Rabs x <= a)%R -> (- a <= x <= a)%R.
Proof. unfold Rabs. destruct (Rcase_abs x); lra. Qed.

(* a value within tau of a class member, itself of magnitude below pi, is
   within tau of the shortest member of the class *)
Lemma shortest_up_to x D (k : Z) tau :
  (Rabs x <= PI)%R -> (0 <= tau)%R ->
  (Rabs (x - (D + IZR k * (2 * PI))) <= tau)%R ->
  forall (j : Z) v, v = (D + IZR j * (2 * PI))%R ->
  (Rabs x <= Rabs v + tau)%R.
Proof.
  intros Hx Ht He j v ->.
  assert (Hpi : (0 < PI)%R) by exact PI_RGT_0.
  apply Rabs_bounds in Hx. apply Rabs_bounds in He.
  set (m := j - k).
  assert (Em : (IZR j = IZR k + IZR m)%R)
    by (unfold m; rewrite minus_IZR; ring).
  rewrite Em.
  pose proof (RRle_abs (D + (IZR k + IZR m) * (2 * PI))) as Hv1.
  assert (Hv2 : (- (D + (IZR k + IZR m) * (2 * PI))
                 <= Rabs (D + (IZR k + IZR m) * (2 * PI)))%R)
    by (rewrite <- Rabs_Ropp; apply RRle_abs).
  assert (Hxa : (Rabs x <= PI)%R) by (apply Rabs_le; lra).
  destruct (Z.lt_trichotomy m 0) as [Hm|[Hm|Hm]].
  - assert (IZR m <= -1)%R by (apply IZR_le; lia).
    assert (IZR m * (2 * PI) <= - (2 * PI))%R by nra.
    lra.
  - rewrite Hm in *. apply Rabs_le. lra.
  - assert (1 <= IZR m)%R by (apply IZR_le; lia).
    assert (2 * PI <= IZR m * (2 * PI))%R by nra.
    lra.
Qed.

(** C4, amended: for finite doubles [a] and [b] whose difference [b - a]
    does not overflow, [angleDiff a b] is a finite double with value
    strictly above minus pi and at most pi; when moreover [a] and [b] are
    at most 2^20 in magnitude, that value is within 2^-29 of a real
    congruent to [b - a] modulo two pi, and no real congruent to [b - a]
    is shorter than it by more than 2^-29. *)
Theorem angleDiff_binary64 (a b : double) :
  isFinite a = true -> isFinite b = true -> isFinite (dsub b a) = true ->
  isFinite (angleDiff a b) = true /\
  (- PI < toReal (angleDiff a b) <= PI)%R /\
  (magnitudeAtMost 20 a = true -> magnitudeAtMost 20 b = true ->
   exists k : Z,
     (Rabs (toReal (angleDiff a b)
            - (toReal b - toReal a + IZR k * (2 * PI))) <= / 2 ^ 29)%R /\
     forall (j : Z) v, v = (toReal b - toReal a + IZR j * (2 * PI))%R ->
       (Rabs (toReal (angleDiff a b)) <= Rabs v + / 2 ^ 29)%R).
Proof.
  intros Ha Hb Hd.
  destruct (isFinite_inv a Ha) as [a0 [-> Ra]].
  destruct (isFinite_inv b Hb) as [b0 [-> Rb]].
  assert (Hov : Z.abs (roundZ (b0 - a0)) < 2 ^ 2098).
  { rewrite dsub_fin in Hd. unfold overflow in Hd.
    destruct (Z.leb_spec (2 ^ 2098) (Z.abs (roundZ (b0 - a0))));
      [discriminate|assumption]. }
  rewrite (angleDiff_fin a0 b0 Ra Hov).
  set (n := tailZ (roundZ (roundZ (b0 - a0) + nPi))).
  pose proof (tailZ_range (roundZ (roundZ (b0 - a0) + nPi))) as Hr.
  fold n in Hr.
  pose proof (principal_real n Hr) as Hreal.
  split; [apply representableb_spec, tailZ_representable|].
  split; [exact Hreal|].
  intros Ma Mb. cbn [toReal].
  pose proof (magnitude_inv _ a0 eq_refl Ma) as Ba.
  pose proof (magnitude_inv _ b0 eq_refl Mb) as Bb.
  destruct (angleDiff_error a0 b0 Ba Bb) as [k [Hk Hkb]]. fold n in Hk.
  pose proof (approx_real n (b0 - a0) k _ Hk Hkb) as Happ.
  rewrite toR_sub in Happ.
  assert (Hclose : (Rabs (toR n - (toR b0 - toR a0 + IZR k * (2 * PI)))
                    <= / 2 ^ 29)%R)
    by (eapply Rle_trans; [exact Happ|apply tolerance_30_31]).
  exists k. split; [exact Hclose|].
  apply (shortest_up_to (toR n) (toR b0 - toR a0) k); auto.
  - apply Rabs_le. lra.
  - left. apply Rinv_0_lt_compat, pow_lt. lra.
Qed.

Lemma representable_opp a : representable a -> representable (- a).
Proof. intros [G B]. split; [now apply onGrid_opp|]. now rewrite Z.abs_opp. Qed.

Lemma unwrap_fin p n :
  representable p -> representable n ->
  unwrap (Fin p) (Fin n) = Fin (unwrapZ p n) /\
  Z.abs (unwrapZ p n) < 2 ^ 2098.
Proof.
  intros Hp Hn. unfold unwrap, unwrapZ. cbv zeta.
  rewrite angleConv_constrainAngle, (constrainAngle_fin p Hp).
  set (c := tailZ (roundZ (p + nPi))).
  pose proof (tailZ_range (roundZ (p + nPi))) as Hc. fold c in Hc.
  pose proof nPi_small as Hs.
  assert (Hov : Z.abs (roundZ (c - n)) < 2 ^ 2098).
  { replace (c - n) with (- n + c) by lia.
    apply roundZ_add_small; [now apply representable_opp|lia]. }
  rewrite (angleDiff_fin n c Hn Hov).
  set (d := tailZ (roundZ (roundZ (c - n) + nPi))).
  pose proof (tailZ_range (roundZ (roundZ (c - n) + nPi))) as Hd.
  fold d in Hd.
  assert (Hu : Z.abs (roundZ (p - d)) < 2 ^ 2098).
  { replace (p - d) with (p + - d) by lia.
    apply roundZ_add_small; [exact Hp|lia]. }
  rewrite dsub_fin, overflow_fin by exact Hu. split; [reflexivity|exact Hu].
Qed.

Lemma unwrap_step p n :
  exists d, - nPi <= d <= nPi /\ unwrapZ p n = roundZ (p - d).
Proof.
  unfold unwrapZ. cbv zeta. eexists. split; [|reflexivity].
  apply tailZ_range.
Qed.

Lemma unwrap_error p n :
  Z.abs p <= 2 ^ 1094 -> Z.abs n <= 2 ^ 1094 ->
  Z.abs (unwrapZ p n - p) <= nPi + 2 ^ 1042 /\
  exists k,
    Z.abs (unwrapZ p n - (n + k * (2 * nPi))) <= 2 ^ 1045 /\
    Z.abs k <= 2 ^ 20.
Proof.
  intros Hp Hn. unfold unwrapZ. cbv zeta.
  set (tp := roundZ (p + nPi)).
  assert (He1 : Z.abs (tp - (p + nPi)) <= 2 ^ 1042).
  { apply round_err_1096. in_units W. lia. }
  destruct (tailZ_congruent tp) as [k1 Hk1].
  pose proof (tailZ_range tp) as Hc.
  set (c := tailZ tp) in *.
  assert (Hcb : Z.abs c <= 2 ^ 1094) by (in_units W; lia).
  destruct (angleDiff_error n c Hn Hcb) as [k2 [Hk2 _]].
  pose proof (tailZ_range (roundZ (roundZ (c - n) + nPi))) as Hd.
  set (d := tailZ (roundZ (roundZ (c - n) + nPi))) in *.
  assert (He4 : Z.abs (roundZ (p - d) - (p - d)) <= 2 ^ 1042).
  { apply round_err_1096. in_units W. lia. }
  set (u := roundZ (p - d)) in *.
  clearbody u d c tp.
  split; [lia|].
  exists (k1 - k2).
  assert (Hsum : Z.abs (u - (n + (k1 - k2) * (2 * nPi))) <= 2 ^ 1045)
    by (in_units W; lia).
  split; [exact Hsum|].
  assert (Hturn : Z.abs ((k1 - k2) * (2 * nPi)) <= (2 ^ 21 + 6) * 2 ^ 1074).
  { change (2 ^ 21 + 6) with 2097158. in_units W. lia. }
  apply turns_bound in Hturn. change (2 ^ 21 + 6) with 2097158 in Hturn.
  change (2 ^ 20) with 1048576. lia.
Qed.

(** C1, amended: for finite doubles, [unwrap previousUnwrapped newRaw] is
    a finite double, namely [previousUnwrapped - d] rounded once for a
    finite [d] of magnitude at most [M_PI]; when moreover both arguments
    are at most 2^20 in magnitude, the result is within pi + 2^-32 of
    [previousUnwrapped] and within 2^-28 of a real that differs from
    [newRaw] by a whole multiple of two pi. *)
Theorem unwrap_binary64 (previousUnwrapped newRaw : double) :
  isFinite previousUnwrapped = true -> isFinite newRaw = true ->
  isFinite (unwrap previousUnwrapped newRaw) = true /\
  (exists d, isFinite d = true /\
             (Rabs (toReal d) <= toReal M_PI)%R /\
             unwrap previousUnwrapped newRaw = dsub previousUnwrapped d) /\
  (magnitudeAtMost 20 previousUnwrapped = true ->
   magnitudeAtMost 20 newRaw = true ->
   (Rabs (toReal (unwrap previousUnwrapped newRaw)
          - toReal previousUnwrapped) <= PI + / 2 ^ 32)%R /\
   exists k : Z,
     (Rabs (toReal (unwrap previousUnwrapped newRaw)
            - (toReal newRaw + IZR k * (2 * PI))) <= / 2 ^ 28)%R).
Proof.
  intros Hp Hn.
  destruct (isFinite_inv _ Hp) as [p [-> Rp]].
  destruct (isFinite_inv _ Hn) as [n [-> Rn]].
  destruct (unwrap_fin p n Rp Rn) as [Eu Hu].
  split; [|split].
  - rewrite Eu. apply representableb_spec. split; [|exact Hu].
    unfold unwrapZ. cbv zeta. apply roundZ_grid.
  - exists (angleDiff (Fin n) (angleConv (Fin p))).
    split; [|split; [|reflexivity]].
    + rewrite angleConv_constrainAngle, (constrainAngle_fin p Rp).
      rewrite angleDiff_fin; [apply representableb_spec, tailZ_representable
                             |exact Rn|].
      pose proof (tailZ_range (roundZ (p + nPi))). pose proof nPi_small.
      replace (tailZ (roundZ (p + nPi)) - n)
        with (- n + tailZ (roundZ (p + nPi))) by lia.
      apply roundZ_add_small; [now apply representable_opp|lia].
    + rewrite angleConv_constrainAngle, (constrainAngle_fin p Rp).
      rewrite angleDiff_fin; [|exact Rn|].
      * rewrite M_PI_eq. cbn [toReal]. apply toR_abs_le.
        pose proof (tailZ_range
          (roundZ (roundZ (tailZ (roundZ (p + nPi)) - n) + nPi))). lia.
      * pose proof (tailZ_range (roundZ (p + nPi))). pose proof nPi_small.
        replace (tailZ (roundZ (p + nPi)) - n)
          with (- n + tailZ (roundZ (p + nPi))) by lia.
        apply roundZ_add_small; [now apply representable_opp|lia].
  - intros Mp Mn. rewrite Eu. cbn [toReal].
    pose proof (magnitude_inv _ p eq_refl Mp) as Bp.
    pose proof (magnitude_inv _ n eq_refl Mn) as Bn.
    destruct (unwrap_error p n Bp Bn) as [Hstep [k [Hk Hkb]]].
    split.
    + apply toR_abs_le in Hstep.
      rewrite toR_sub, toR_add, tolerance_32 in Hstep.
      pose proof PI_above_M_PI. lra.
    + exists k. eapply Rle_trans; [|apply tolerance_29_31].
      now apply approx_real.
Qed.

Lemma toR_unit : toR (2 ^ 1074) = 1%R.
Proof.
  change 1074 with (Z.of_nat 1074). rewrite (toR_pow2 1074 0) by reflexivity.
  cbn [pow]. field.
Qed.

Lemma PI_lt_4 : (PI < 4)%R.
Proof. pose proof PI_below as H. rewrite toR_nPi in H. cbn [pow] in H. lra. Qed.

(** C3, as stated, fails: for the double just below [- M_PI] (bit pattern
    [0xC00921FB54442D19]) [constrainAngle] returns [M_PI], and
    [constrainAngle] of [M_PI] is [- M_PI]. *)
Lemma constrainAngle_twice_differs :
  let x := ofBits 0xC00921FB54442D19 in
  isFinite x = true /\
  constrainAngle x = M_PI /\
  constrainAngle (constrainAngle x) = dneg M_PI /\
  constrainAngle (constrainAngle x) <> constrainAngle x.
Proof.
  cbv zeta.
  assert (E1 : constrainAngle (ofBits 0xC00921FB54442D19) = M_PI)
    by (vm_compute; reflexivity).
  assert (E2 : constrainAngle M_PI = dneg M_PI) by (vm_compute; reflexivity).
  split; [vm_compute; reflexivity|]. split; [exact E1|].
  rewrite E1. split; [exact E2|]. rewrite E2.
  intros E. vm_compute in E. discriminate E.
Qed.

Lemma constrainAngle_idempotent_witness :
  let x := ofBits 0x401C000000000000 in
  isFinite x = true /\ constrainAngle x <> M_PI /\
  constrainAngle (constrainAngle x) = constrainAngle x.
Proof.
  cbv zeta.
  assert (H1 : isFinite (ofBits 0x401C000000000000) = true)
    by (vm_compute; reflexivity).
  assert (H2 : constrainAngle (ofBits 0x401C000000000000) <> M_PI).
  { intros E. vm_compute in E. discriminate E. }
  exact (conj H1 (conj H2 (constrainAngle_idempotent_below_M_PI _ H1 H2))).
Defined.

(** C4, as stated, fails: for the finite doubles 1e308 and -1e308 the
    difference overflows and [angleDiff] returns NaN; and from 0 to 1e-20
    it returns 0, which is not congruent to 1e-20 modulo two pi. *)
Lemma angleDiff_overflow_and_absorption :
  (let a := ofBits 0x7FE1CCF385EBC8A0 in
   let b := ofBits 0xFFE1CCF385EBC8A0 in
   isFinite a = true /\ isFinite b = true /\ angleDiff a b = NaN) /\
  (let a := ofBits 0 in
   let b := ofBits 0x3BC79CA10C924223 in
   isFinite a = true /\ isFinite b = true /\
   angleDiff a b = Fin 0 /\
   ~ exists k : Z,
       toReal (angleDiff a b) = (toReal b - toReal a + IZR k * (2 * PI))%R).
Proof.
  split; cbv zeta.
  - repeat split; vm_compute; reflexivity.
  - assert (E : angleDiff (ofBits 0) (ofBits 0x3BC79CA10C924223) = Fin 0)
      by (vm_compute; reflexivity).
    split; [vm_compute; reflexivity|]. split; [vm_compute; reflexivity|].
    split; [exact E|]. rewrite E.
    assert (Ea : ofBits 0 = Fin 0) by (vm_compute; reflexivity).
    assert (Eb : exists m, ofBits 0x3BC79CA10C924223 = Fin m /\
                           0 < m < 2 ^ 1074).
    { eexists. split; [vm_compute; reflexivity|].
      split; apply Z.ltb_lt; vm_compute; reflexivity. }
    destruct Eb as [m [Eb [Hm1 Hm2]]]. rewrite Ea, Eb. cbn [toReal].
    assert (H0 : toR 0 = 0%R) by (unfold toR, Rdiv; ring).
    assert (Hlo : (0 < toR m)%R).
    { rewrite <- H0. unfold toR. apply Rmult_lt_compat_r.
      - apply Rinv_0_lt_compat, pow_lt. lra.
      - apply IZR_lt. lia. }
    assert (Hhi : (toR m <= 1)%R).
    { rewrite <- toR_unit. apply toR_le. lia. }
    rewrite H0. intros [k Hk].
    pose proof PI_RGT_0 as Hpi.
    destruct (Z.lt_trichotomy k 0) as [Hn|[->|Hp]].
    + assert (IZR k <= -1)%R by (apply IZR_le; lia).
      pose proof PI_above_M_PI as Hb. rewrite toR_nPi in Hb.
      cbn [pow] in Hb. nra.
    + lra.
    + assert (1 <= IZR k)%R by (apply IZR_le; lia). nra.
Qed.

(** C1, as stated, fails: [unwrap] of 2^53 and the double
    [0x4000E75E48A2138C] (about 2.113) is 2^53 + 4, at distance 4 from the
    previous angle; and [unwrap] of 0 and 1e-20 is 0, which does not differ
    from 1e-20 by a whole multiple of two pi. *)
Lemma unwrap_step_and_class_fail :
  (let p := ofBits 0x4340000000000000 in
   let n := ofBits 0x4000E75E48A2138C in
   isFinite p = true /\ isFinite n = true /\
   unwrap p n = ofBits 0x4340000000000002 /\
   ~ (Rabs (toReal (unwrap p n) - toReal p) <= PI)%R) /\
  (let p := ofBits 0 in
   let n := ofBits 0x3BC79CA10C924223 in
   isFinite p = true /\ isFinite n = true /\
   unwrap p n = Fin 0 /\
   ~ exists k : Z,
       toReal (unwrap p n) = (toReal n + IZR k * (2 * PI))%R).
Proof.
  split; cbv zeta.
  - assert (E : unwrap (ofBits 0x4340000000000000) (ofBits 0x4000E75E48A2138C)
                = ofBits 0x4340000000000002) by (vm_compute; reflexivity).
    split; [vm_compute; reflexivity|]. split; [vm_compute; reflexivity|].
    split; [exact E|]. rewrite E.
    assert (Ep : ofBits 0x4340000000000000 = Fin (2 ^ 53 * 2 ^ 1074))
      by (vm_compute; reflexivity).
    assert (Eu : ofBits 0x4340000000000002 = Fin ((2 ^ 53 + 4) * 2 ^ 1074))
      by (vm_compute; reflexivity).
    rewrite Ep, Eu. cbn [toReal]. rewrite !toR_mul, toR_unit.
    rewrite plus_IZR. pose proof PI_lt_4 as H4.
    replace (((IZR (2 ^ 53) + 4) * 1 - IZR (2 ^ 53) * 1))%R with 4%R by ring.
    rewrite Rabs_right by lra. lra.
  - assert (E : unwrap (ofBits 0) (ofBits 0x3BC79CA10C924223) = Fin 0)
      by (vm_compute; reflexivity).
    split; [vm_compute; reflexivity|]. split; [vm_compute; reflexivity|].
    split; [exact E|]. rewrite E.
    assert (Eb : exists m, ofBits 0x3BC79CA10C924223 = Fin m /\
                           0 < m < 2 ^ 1074).
    { eexists. split; [vm_compute; reflexivity|].
      split; apply Z.ltb_lt; vm_compute; reflexivity. }
    destruct Eb as [m [Eb [Hm1 Hm2]]]. rewrite Eb. cbn [toReal].
    assert (H0 : toR 0 = 0%R) by (unfold toR, Rdiv; ring).
    assert (Hlo : (0 < toR m)%R).
    { rewrite <- H0. unfold toR. apply Rmult_lt_compat_r.
      - apply Rinv_0_lt_compat, pow_lt. lra.
      - apply IZR_lt. lia. }
    assert (Hhi : (toR m <= 1)%R).
    { rewrite <- toR_unit. apply toR_le. lia. }
    rewrite H0. intros [k Hk].
    pose proof PI_RGT_0 as Hpi.
    destruct (Z.lt_trichotomy k 0) as [Hn|[->|Hp]].
    + assert (IZR k <= -1)%R by (apply IZR_le; lia).
      pose proof PI_above_M_PI as Hb. rewrite toR_nPi in Hb.
      cbn [pow] in Hb. nra.
    + lra.
    + assert (1 <= IZR k)%R by (apply IZR_le; lia). nra.
Qed.

Lemma unwrap_binary64_witness :
  let p := ofBits 0x401C000000000000 in
  let n := ofBits 0x4022000000000000 in
  isFinite p = true /\ isFinite n = true /\
  magnitudeAtMost 20 p = true /\ magnitudeAtMost 20 n = true /\
  isFinite (unwrap p n) = true /\
  (Rabs (toReal (unwrap p n) - toReal p) <= PI + / 2 ^ 32)%R /\
  exists k : Z,
    (Rabs (toReal (unwrap p n) - (toReal n + IZR k * (2 * PI)))
     <= / 2 ^ 28)%R.
Proof.
  cbv zeta.
  assert (H1 : isFinite (ofBits 0x401C000000000000) = true)
    by (vm_compute; reflexivity).
  assert (H2 : isFinite (ofBits 0x4022000000000000) = true)
    by (vm_compute; reflexivity).
  assert (M1 : magnitudeAtMost 20 (ofBits 0x401C000000000000) = true)
    by (vm_compute; reflexivity).
  assert (M2 : magnitudeAtMost 20 (ofBits 0x4022000000000000) = true)
    by (vm_compute; reflexivity).
  destruct (unwrap_binary64 _ _ H1 H2) as [F [_ B]].
  destruct (B M1 M2) as [S C].
  exact (conj H1 (conj H2 (conj M1 (conj M2 (conj F (conj S C)))))).
Defined.

Lemma angleDiff_binary64_witness :
  let a := ofBits 0x3FF0000000000000 in
  let b := ofBits 0x4000000000000000 in
  isFinite a = true /\ isFinite b = true /\ isFinite (dsub b a) = true /\
  magnitudeAtMost 20 a = true /\ magnitudeAtMost 20 b = true /\
  isFinite (angleDiff a b) = true /\
  (- PI < toReal (angleDiff a b) <= PI)%R /\
  exists k : Z,
    (Rabs (toReal (angleDiff a b)
           - (toReal b - toReal a + IZR k * (2 * PI))) <= / 2 ^ 29)%R.
Proof.
  cbv zeta.
  assert (H1 : isFinite (ofBits 0x3FF0000000000000) = true)
    by (vm_compute; reflexivity).
  assert (H2 : isFinite (ofBits 0x4000000000000000) = true)
    by (vm_compute; reflexivity).
  assert (H3 : isFinite (dsub (ofBits 0x4000000000000000)
                              (ofBits 0x3FF0000000000000)) = true)
    by (vm_compute; reflexivity).
  assert (M1 : magnitudeAtMost 20 (ofBits 0x3FF0000000000000) = true)
    by (vm_compute; reflexivity).
  assert (M2 : magnitudeAtMost 20 (ofBits 0x4000000000000000) = true)
    by (vm_compute; reflexivity).
  destruct (angleDiff_binary64 _ _ H1 H2 H3) as [F [R B]].
  destruct (B M1 M2) as [k [Hk _]].
  exact (conj H1 (conj H2 (conj H3 (conj M1 (conj M2 (conj F (conj R
          (ex_intro _ k Hk)))))))).
Defined.

(** ** Further properties of the helpers on doubles *)

(** X24: on every double, finite or not, [angleConv] returns exactly what
    [constrainAngle] returns. *)
Theorem angleConv_is_constrainAngle_binary64 (x : double) :
  angleConv x = constrainAngle x.
Proof. apply angleConv_constrainAngle. Qed.

Lemma tailD_not_number x : isNumber x = false -> tailD x = NaN.
Proof. destruct x; [discriminate|reflexivity|reflexivity]. Qed.

Lemma dadd_not_number_l x y : isNumber x = false -> isNumber (dadd x y) = false.
Proof.
  destruct x as [a|s|]; [discriminate| |reflexivity].
  intros _. destruct y as [b|t|]; cbn; try reflexivity.
  destruct (Bool.eqb s t); reflexivity.
Qed.

Lemma dadd_not_number_r x y : isNumber y = false -> isNumber (dadd x y) = false.
Proof.
  destruct y as [b|t|]; [discriminate| |destruct x; reflexivity].
  intros _. destruct x as [a|s|]; cbn; try reflexivity.
  destruct (Bool.eqb s t); reflexivity.
Qed.

Lemma dneg_not_number x : isNumber x = false -> isNumber (dneg x) = false.
Proof. destruct x; [discriminate|reflexivity|reflexivity]. Qed.

Lemma angleDiff_not_number_l a b : isNumber a = false -> angleDiff a b = NaN.
Proof.
  intros H. rewrite angleDiff_tail. apply tailD_not_number.
  apply dadd_not_number_l. unfold dsub.
  apply dadd_not_number_r. now apply dneg_not_number.
Qed.

Lemma angleDiff_not_number_r a b : isNumber b = false -> angleDiff a b = NaN.
Proof.
  intros H. rewrite angleDiff_tail. apply tailD_not_number.
  apply dadd_not_number_l. unfold dsub. now apply dadd_not_number_l.
Qed.

Lemma dsub_NaN x : dsub x NaN = NaN.
Proof. destruct x; reflexivity. Qed.

(** X25: an infinite or NaN argument makes every helper return NaN, in
    whichever position it is passed; an infinity is not passed through. *)
Theorem not_a_number_propagates (x y : double) :
  isNumber x = false ->
  constrainAngle x = NaN /\ angleConv x = NaN /\
  angleDiff x y = NaN /\ angleDiff y x = NaN /\
  unwrap x y = NaN /\ unwrap y x = NaN.
Proof.
  intros Hx.
  assert (Hc : constrainAngle x = NaN).
  { rewrite constrainAngle_tail. apply tailD_not_number.
    now apply dadd_not_number_l. }
  split; [exact Hc|]. split; [now rewrite angleConv_constrainAngle|].
  split; [now apply angleDiff_not_number_l|].
  split; [now apply angleDiff_not_number_r|].
  split; unfold unwrap.
  - rewrite angleConv_constrainAngle, Hc.
    rewrite angleDiff_not_number_r by reflexivity. apply dsub_NaN.
  - rewrite angleDiff_not_number_l by exact Hx. apply dsub_NaN.
Qed.

Lemma not_a_number_propagates_witness :
  isNumber (Inf false) = false /\
  constrainAngle (Inf false) = NaN /\ unwrap M_PI (Inf false) = NaN.
Proof.
  assert (H : isNumber (Inf false) = false) by reflexivity.
  split; [exact H|].
  destruct (not_a_number_propagates (Inf false) M_PI H)
    as (H1 & _ & _ & _ & _ & H6).
  split; assumption.
Defined.



Lemma constrainAngle_in_principal_range_witness :
  let x := ofBits 0x4480F0CF064DD592 in
  isFinite x = true /\
  isFinite (constrainAngle x) = true /\
  (- toReal M_PI <= toReal (constrainAngle x) <= toReal M_PI)%R /\
  (- PI < toReal (constrainAngle x) <= PI)%R.
Proof.
  cbv zeta.
  assert (H : isFinite (ofBits 0x4480F0CF064DD592) = true)
    by (vm_compute; reflexivity).
  exact (conj H (constrainAngle_in_principal_range _ H)).
Defined.

(** ** The model on known values *)

Example model_unwrap_run :
  unwrap (ofBits 0x4008000000000000) (ofBits 0xC008CCCCCCCCCCCD)
    = ofBits 0x40097729DBBB8D64 /\
  unwrap (ofBits 0x40097729DBBB8D64) (ofBits 0x4008000000000000)
    = ofBits 0x4008000000000000.
Proof. split; vm_compute; reflexivity. Qed.

Example model_large_arguments :
  constrainAngle (ofBits 0x4480F0CF064DD592) = ofBits 0xC000A012CA00B878 /\
  unwrap (ofBits 0x4480F0CF064DD592) (ofBits 0) = ofBits 0x4480F0CF064DD592.
Proof. split; vm_compute; reflexivity. Qed.

End Binary64Facts.

(* ===================================================================== *)
(** * Properties of PlotRegistry *)
(* ===================================================================== *)

Module RegistryFacts.

Import PlotRegistry.

(** ** Lookup in both directions *)

Lemma slotFor_idFor id tbl slot :
  slotFor id tbl = Some slot -> idFor slot tbl = Some id.
Proof.
  unfold idFor. revert slot.
  induction tbl as [|u rest IH]; intros slot; cbn [slotFor]; [discriminate|].
  destruct (N.eqb_spec u id) as [->|Hne].
  - intros [= <-]. reflexivity.
  - destruct (slotFor id rest) as [j|]; [|discriminate].
    intros [= <-]. cbn. now apply IH.
Qed.

Lemma slotFor_None id tbl : slotFor id tbl = None <-> ~ In id tbl.
Proof.
  induction tbl as [|u rest IH]; cbn [slotFor In]; [tauto|].
  destruct (N.eqb_spec u id) as [->|Hne].
  - split; [discriminate|tauto].
  - destruct (slotFor id rest) as [j|]; cbn [option_map].
    + split; [discriminate|]. intros Hn. exfalso. apply Hn. right.
      destruct IH as [_ IH]. destruct (in_dec N.eq_dec id rest); auto.
      specialize (IH n). discriminate.
    + split; [|reflexivity]. intros _ [E|Hin]; [congruence|].
      destruct IH as [IH _]. now apply IH.
Qed.

Lemma slotFor_In id tbl : In id tbl <-> exists slot, slotFor id tbl = Some slot.
Proof.
  destruct (slotFor id tbl) as [j|] eqn:E.
  - split; [eauto|]. intros _.
    destruct (in_dec N.eq_dec id tbl) as [Hin|Hn]; [exact Hin|].
    apply slotFor_None in Hn. congruence.
  - apply slotFor_None in E. split; [tauto|]. intros [slot Hs]. discriminate.
Qed.

Lemma idFor_slotFor id tbl slot :
  NoDup tbl -> idFor slot tbl = Some id -> slotFor id tbl = Some slot.
Proof.
  unfold idFor. intros Hnd. revert slot.
  induction Hnd as [|u rest Hnotin Hnd IH]; intros slot.
  - destruct slot; discriminate.
  - destruct slot as [|j]; cbn [nth_error slotFor].
    + intros [= ->]. now rewrite N.eqb_refl.
    + intros Hj. destruct (N.eqb_spec u id) as [->|Hne].
      * exfalso. apply Hnotin. eapply nth_error_In; eauto.
      * now rewrite (IH _ Hj).
Qed.

Lemma occupied_iff tbl slot : occupied tbl slot <-> slot < length tbl.
Proof.
  unfold occupied, idFor. rewrite <- nth_error_Some.
  destruct (nth_error tbl slot) as [id|]; split.
  - discriminate.
  - eauto.
  - intros [id H]. discriminate.
  - congruence.
Qed.

(** ** Removal at a position *)

Lemma removeAt_In {A} (x : A) i l : In x (removeAt i l) -> In x l.
Proof.
  revert i. induction l as [|a rest IH]; intros [|j]; cbn; auto.
  intros [E|Hin]; eauto.
Qed.

Lemma removeAt_NoDup {A} i (l : list A) : NoDup l -> NoDup (removeAt i l).
Proof.
  intros Hnd. revert i.
  induction Hnd as [|a rest Hnotin Hnd IH]; intros [|j]; cbn;
    try constructor; auto.
  intros Hin. apply Hnotin. eapply removeAt_In; eauto.
Qed.

Lemma removeAt_slotFor_In id u tbl slot :
  NoDup tbl -> slotFor u tbl = Some slot ->
  (In id (removeAt slot tbl) <-> In id tbl /\ id <> u).
Proof.
  intros Hnd. revert slot.
  induction Hnd as [|a rest Hnotin Hnd IH]; intros slot;
    cbn [slotFor]; [discriminate|].
  destruct (N.eqb_spec a u) as [->|Hne].
  - intros [= <-]. cbn. split.
    + intros Hin. split; [auto|]. intros ->. contradiction.
    + intros [[E|Hin] Hx]; [congruence|exact Hin].
  - destruct (slotFor u rest) as [j|] eqn:Ej; [|discriminate].
    intros [= <-]. cbn. rewrite (IH j eq_refl). split.
    + intros [E|[Hin Hx]]; [|tauto]. subst a. split; [auto|congruence].
    + intros [[E|Hin] Hx]; tauto.
Qed.

(** ** One call *)

Lemma call_NoDup tbl c : NoDup tbl -> NoDup (call tbl c).
Proof.
  intros Hnd. destruct c as [id|id]; cbn [call].
  - unfold assignSlot. destruct (slotFor id tbl) as [s|] eqn:E; cbn; auto.
    apply slotFor_None in E.
    apply NoDup_app; repeat split; auto.
    + constructor; [intros []|constructor].
    + intros x Hx [<-|[]]. contradiction.
  - unfold releaseSlot. destruct (slotFor id tbl); auto.
    now apply removeAt_NoDup.
Qed.

Lemma call_In tbl c id :
  NoDup tbl ->
  (In id (call tbl c) <->
   shownStep id (if in_dec N.eq_dec id tbl then true else false) c = true).
Proof.
  intros Hnd. destruct c as [u|u]; cbn [call shownStep].
  - unfold assignSlot. destruct (slotFor u tbl) as [s|] eqn:E; cbn [snd].
    + assert (Hu : In u tbl) by (apply slotFor_In; eauto).
      destruct (N.eqb_spec u id) as [->|Hne]; [tauto|].
      destruct (in_dec N.eq_dec id tbl); split; auto; discriminate.
    + rewrite in_app_iff. cbn [In].
      destruct (N.eqb_spec u id) as [->|Hne]; [tauto|].
      destruct (in_dec N.eq_dec id tbl); split; auto; try discriminate.
      intros [H|[H|[]]]; [contradiction|congruence].
  - unfold releaseSlot. destruct (slotFor u tbl) as [s|] eqn:E.
    + rewrite (removeAt_slotFor_In id u tbl s Hnd E).
      destruct (N.eqb_spec u id) as [->|Hne].
      * split; [tauto|discriminate].
      * destruct (in_dec N.eq_dec id tbl) as [Hin|Hout]; split.
        -- reflexivity.
        -- intros _. split; [exact Hin|congruence].
        -- tauto.
        -- discriminate.
    + apply slotFor_None in E.
      destruct (N.eqb_spec u id) as [->|Hne].
      * split; [tauto|discriminate].
      * destruct (in_dec N.eq_dec id tbl); split; auto; discriminate.
Qed.

(** ** A sequence of calls *)

Lemma runFrom_NoDup calls tbl : NoDup tbl -> NoDup (runFrom tbl calls).
Proof.
  revert tbl. induction calls as [|c cs IH]; intros tbl Hnd; cbn; auto.
  apply IH. now apply call_NoDup.
Qed.

Lemma inb_call tbl c id :
  NoDup tbl ->
  (if in_dec N.eq_dec id (call tbl c) then true else false) =
  shownStep id (if in_dec N.eq_dec id tbl then true else false) c.
Proof.
  intros Hnd. pose proof (call_In tbl c id Hnd) as H.
  destruct (in_dec N.eq_dec id (call tbl c)) as [Hin|Hout].
  - symmetry. now apply H.
  - destruct (shownStep id _ c); [|reflexivity].
    exfalso. apply Hout. now apply H.
Qed.

Lemma runFrom_In calls tbl id :
  NoDup tbl ->
  (In id (runFrom tbl calls) <->
   fold_left (shownStep id) calls
     (if in_dec N.eq_dec id tbl then true else false) = true).
Proof.
  revert tbl. induction calls as [|c cs IH]; intros tbl Hnd.
  - cbn. destruct (in_dec N.eq_dec id tbl); split; auto; discriminate.
  - cbn [runFrom fold_left]. rewrite <- inb_call by exact Hnd.
    apply (IH (call tbl c)). now apply call_NoDup.
Qed.

Lemma shown_called cs id b :
  fold_left (shownStep id) cs b = true ->
  b = true \/ In id (map calledId cs).
Proof.
  revert b. induction cs as [|c cs IH]; intros b; cbn; auto.
  intros H. destruct (IH _ H) as [Hb|Hin]; [|auto].
  destruct c as [u|u]; cbn in Hb |- *;
    destruct (N.eqb_spec u id); subst; auto; discriminate.
Qed.

Lemma run_displayed calls id :
  In id (run calls) <-> In id (displayedIds calls).
Proof.
  unfold run, displayedIds. rewrite nodup_In, filter_In.
  rewrite (runFrom_In calls [] id) by constructor.
  change (fold_left (shownStep id) calls
            (if in_dec N.eq_dec id [] then true else false))
    with (shown calls id).
  split; [|tauto]. intros H. split; [|exact H].
  destruct (shown_called _ _ _ H) as [Hb|Hin]; [discriminate|exact Hin].
Qed.

Lemma run_length calls : length (run calls) = length (displayedIds calls).
Proof.
  apply Permutation_length, NoDup_Permutation.
  - apply runFrom_NoDup. constructor.
  - apply NoDup_nodup.
  - intros id. apply run_displayed.
Qed.

Lemma slotFor_appended id tbl :
  ~ In id tbl -> slotFor id (tbl ++ [id]) = Some (length tbl).
Proof.
  induction tbl as [|u rest IH]; cbn [slotFor app length In]; intros Hn.
  - now rewrite N.eqb_refl.
  - destruct (N.eqb_spec u id) as [->|Hne]; [tauto|].
    rewrite IH by tauto. reflexivity.
Qed.

(** ** The registry on small inputs *)

Example run_add_add_remove :
  run [AssignSlot 1%N; AssignSlot 2%N; ReleaseSlot 1%N] = [2%N]
  /\ slotFor 2%N (run [AssignSlot 1%N; AssignSlot 2%N; ReleaseSlot 1%N])
     = Some 0.
Proof. split; reflexivity. Qed.

Example assignSlot_known :
  assignSlot 9%N [5%N; 9%N] = (1, [5%N; 9%N]).
Proof. reflexivity. Qed.

Example assignSlot_fresh :
  assignSlot 7%N [5%N; 9%N] = (2, [5%N; 9%N; 7%N]).
Proof. reflexivity. Qed.

Example releaseSlot_middle :
  releaseSlot 9%N [5%N; 9%N; 7%N] = [5%N; 7%N].
Proof. reflexivity. Qed.

(** ** The claims about PlotRegistry *)

(** C6: after any sequence of [assignSlot] and [releaseSlot] calls made on
    the empty registry, the lookup table holds no uid twice, and the slots
    in use are exactly [0 .. n-1], where [n] is the number of lines on
    display; slot and uid determine each other, and a uid is in the table
    exactly when its line is on display. *)
Theorem lookupTable_contiguous_nodup (calls : list RegistryCall) :
  let tbl := run calls in
  NoDup tbl /\
  (forall slot, occupied tbl slot <-> slot < length (displayedIds calls)) /\
  (forall id slot, slotFor id tbl = Some slot <-> idFor slot tbl = Some id) /\
  (forall id, In id tbl <-> shown calls id = true).
Proof.
  cbv zeta.
  assert (Hnd : NoDup (run calls)) by (apply runFrom_NoDup; constructor).
  split; [exact Hnd|]. split; [|split].
  - intros slot. rewrite <- run_length. apply occupied_iff.
  - intros id slot. split; [apply slotFor_idFor|now apply idFor_slotFor].
  - intros id. apply (runFrom_In calls [] id). constructor.
Qed.

(** C7: on a table without duplicates, two calls of [assignSlot] with the
    same uid return the same slot, the second call leaves the table as the
    first one made it, and that table holds the uid exactly once. *)
Theorem assignSlot_idempotent (id : QUuid) (tbl : LookupTable) :
  NoDup tbl ->
  let '(slot1, tbl1) := assignSlot id tbl in
  let '(slot2, tbl2) := assignSlot id tbl1 in
  slot1 = slot2 /\ tbl2 = tbl1 /\ count_occ N.eq_dec tbl1 id = 1.
Proof.
  intros Hnd. unfold assignSlot at 1.
  destruct (slotFor id tbl) as [s|] eqn:E.
  - unfold assignSlot. rewrite E. repeat split.
    apply NoDup_count_occ'; [exact Hnd|]. apply slotFor_In. eauto.
  - apply slotFor_None in E. unfold assignSlot.
    rewrite (slotFor_appended id tbl E). repeat split.
    rewrite count_occ_app. unfold QUuid in *.
    apply (count_occ_not_In N.eq_dec) in E. rewrite E.
    cbn [count_occ Nat.add].
    destruct (N.eq_dec id id) as [_|Hne]; [reflexivity|congruence].
Qed.

Lemma assignSlot_idempotent_witness :
  NoDup [5%N; 9%N] /\
  (let '(slot1, tbl1) := assignSlot 7%N [5%N; 9%N] in
   let '(slot2, tbl2) := assignSlot 7%N tbl1 in
   slot1 = slot2 /\ tbl2 = tbl1 /\ count_occ N.eq_dec tbl1 7%N = 1).
Proof.
  assert (Hnd : NoDup [5%N; 9%N]).
  { repeat constructor; cbn; intuition discriminate. }
  split; [exact Hnd|]. exact (assignSlot_idempotent 7%N [5%N; 9%N] Hnd).
Defined.

(** C8: for a uid that is not in the lookup table, [releaseSlot] returns
    the table as it was and [removeItem] returns the widget state as it was
    (same table, same plotted lines); both are total, there is no error
    outcome. *)
Theorem release_unknown_is_noop
  (rescaleToFit : list PlottedLine -> Viewport -> Viewport)
  (id : QUuid) (g : Graph) :
  ~ In id (_lookupTable g) ->
  releaseSlot id (_lookupTable g) = _lookupTable g /\
  removeItem rescaleToFit id g = g.
Proof.
  intros Hn. apply slotFor_None in Hn.
  unfold releaseSlot, removeItem. rewrite Hn. split; reflexivity.
Qed.

Lemma release_unknown_is_noop_witness :
  let g := mkGraph [5%N; 9%N] [[(0, 1)%R]; [(1, 0)%R]]
                   ((0, 1), (0, 1))%R in
  ~ In 7%N (_lookupTable g) /\
  releaseSlot 7%N (_lookupTable g) = _lookupTable g /\
  removeItem (fun _ v => v) 7%N g = g.
Proof.
  cbv zeta.
  assert (Hn : ~ In 7%N [5%N; 9%N]) by (cbn; intuition discriminate).
  split; [exact Hn|].
  exact (release_unknown_is_noop (fun _ v => v) 7%N
           (mkGraph [5%N; 9%N] [[(0, 1)%R]; [(1, 0)%R]]
                    ((0, 1), (0, 1))%R) Hn).
Defined.

End RegistryFacts.

(* ===================================================================== *)
(** * Properties of RangeOverlay *)
(* ===================================================================== *)

Module OverlayFacts.

Import RangeOverlay.
Local Open Scope R_scope.

(** A marker whose coordinate is under the pointer is hit, whatever
    non-negative tolerance is in force. *)
Lemma hits_exact tolerance p m :
  0 <= tolerance -> project (boundAxis m) p = coordinate m ->
  hits tolerance p m = true.
Proof.
  intros Ht E. unfold hits. rewrite E, Rminus_diag, Rabs_R0.
  destruct (Rle_dec 0 tolerance); [reflexivity|contradiction].
Qed.

(** C9: in every reachable state of the drag state machine, a pointer-up
    leads to [Idle] wherever the pointer is; a pointer-move in [Idle]
    leaves the state as it is; a pointer-down while [Dragging] leaves the
    state as it is, so the dragged marker and its axis stay the same. *)
Theorem drag_state_machine (tolerance : R) (o : Overlay) (p : Pointer) :
  reachable tolerance o ->
  drag (step tolerance o (PointerUp p)) = Idle /\
  (drag o = Idle -> step tolerance o (PointerMove p) = o) /\
  (forall m a, drag o = Dragging m a ->
     step tolerance o (PointerDown p) = o /\
     drag (step tolerance o (PointerDown p)) = Dragging m a).
Proof.
  intros _. split; [reflexivity|]. split.
  - intros Hi. cbn [step]. unfold handleMouseMove. now rewrite Hi.
  - intros m a Hd. cbn [step]. unfold handleMousePress. rewrite Hd.
    split; [reflexivity|exact Hd].
Qed.

Lemma drag_state_machine_witness :
  let ms := [mkMarker 0 AxisX; mkMarker 1 AxisX;
             mkMarker 0 AxisY; mkMarker 1 AxisY] in
  let idle := mkOverlay ms (0, 10) (0, 10) Idle in
  let busy := mkOverlay ms (0, 10) (0, 10) (Dragging 0 AxisX) in
  let p := mkPointer 0 5 in
  reachable 1 idle /\ reachable 1 busy /\
  drag (step 1 busy (PointerUp p)) = Idle /\
  step 1 idle (PointerMove p) = idle /\
  step 1 busy (PointerDown p) = busy.
Proof.
  cbv zeta.
  set (ms := [mkMarker 0 AxisX; mkMarker 1 AxisX;
              mkMarker 0 AxisY; mkMarker 1 AxisY]).
  set (idle := mkOverlay ms (0, 10) (0, 10) Idle).
  set (busy := mkOverlay ms (0, 10) (0, 10) (Dragging 0 AxisX)).
  set (p := mkPointer 0 5).
  assert (Ri : reachable 1 idle) by apply reach_start.
  assert (Rb : reachable 1 busy).
  { assert (E : busy = step 1 idle (PointerDown p)).
    { cbn [step]. unfold handleMousePress. cbn [drag idle _ranges ms hitTest].
      rewrite hits_exact; [reflexivity|lra|reflexivity]. }
    rewrite E. now apply reach_step. }
  split; [exact Ri|]. split; [exact Rb|].
  destruct (drag_state_machine 1 busy p Rb) as [Hup [_ Hdown]].
  destruct (drag_state_machine 1 idle p Ri) as [_ [Hmove _]].
  split; [exact Hup|]. split; [exact (Hmove eq_refl)|].
  exact (proj1 (Hdown 0%nat AxisX eq_refl)).
Defined.

End OverlayFacts.

(* ===================================================================== *)
(** * Properties of the enumerations *)
(* ===================================================================== *)

Module EnumFacts.

Import PlotEnums.
Local Open Scope Z_scope.

(** X22: the six plot types stand for six different integers, and these
    are exactly the integers from 0 to 5. *)
Theorem plotTypeValue_bijective_0_5 :
  (forall t u, plotTypeValue t = plotTypeValue u -> t = u) /\
  (forall z, (exists t, plotTypeValue t = z) <-> 0 <= z <= 5).
Proof.
  split.
  - intros [] []; cbn; intros E; try reflexivity; discriminate.
  - intros z. split.
    + intros [[] <-]; cbn; lia.
    + intros Hz.
      assert (Hc : z = 0 \/ z = 1 \/ z = 2 \/ z = 3 \/ z = 4 \/ z = 5)
        by lia.
      destruct Hc as [->|[->|[->|[->|[->| ->]]]]];
        [exists TIME|exists FFTAMP|exists FFTPHASE
        |exists FFTPHASEL|exists OSC1|exists OSC2]; reflexivity.
Qed.

(** X23: the three line widths stand for three different integers, and
    these are exactly the integers from 1 to 3; no width is zero. *)
Theorem plotWidthValue_bijective_1_3 :
  (forall w v, plotWidthValue w = plotWidthValue v -> w = v) /\
  (forall z, (exists w, plotWidthValue w = z) <-> 1 <= z <= 3).
Proof.
  split.
  - intros [] []; cbn; intros E; try reflexivity; discriminate.
  - intros z. split.
    + intros [[] <-]; cbn; lia.
    + intros Hz.
      assert (Hc : z = 1 \/ z = 2 \/ z = 3) by lia.
      destruct Hc as [->|[->| ->]];
        [exists NORMAL|exists LARGE|exists LARGER]; reflexivity.
Qed.

End EnumFacts.
